(** * send.py: log folder parser and Logstash sender

    A shallow embedding of [send.py].  Python text is a list of Unicode code
    points, Python values that reach [json.dumps] are a small value type, and
    the file system, the network and the console are an explicit world that
    every effectful function threads through a state-and-exception monad. *)

From Stdlib Require Import List NArith ZArith Arith Bool Lia String Ascii.
From Stdlib Require Decimal.
From Stdlib Require Import Permutation.
Import ListNotations.

Set Warnings "-register-all".

Local Open Scope N_scope.

(** Truth value of a sequence ([str], [list], [dict]): it is not empty. *)
Definition nonempty {A} (l : list A) : bool :=
  match l with [] => false | _ :: _ => true end.

(** ** Python text *)

Module PyStr.

(** A [str] is a sequence of code points. *)
Definition char := N.
Definition pystr := list char.

(** A literal, written as a Rocq string of ASCII characters. *)
Definition lit (s : string) : pystr := map N_of_ascii (list_ascii_of_string s).

(** [str.isspace] on one code point: the table CPython consults in
    [str.strip()] when it is called without an argument. *)
Definition isspace (c : char) : bool :=
  ((0x09 <=? c) && (c <=? 0x0D))
  || ((0x1C <=? c) && (c <=? 0x20))
  || (c =? 0x85) || (c =? 0xA0) || (c =? 0x1680)
  || ((0x2000 <=? c) && (c <=? 0x200A))
  || (c =? 0x2028) || (c =? 0x2029) || (c =? 0x202F)
  || (c =? 0x205F) || (c =? 0x3000).

(** [str.lstrip()]: drop the leading run of whitespace. *)
Fixpoint lstrip (s : pystr) : pystr :=
  match s with
  | [] => []
  | c :: t => if isspace c then lstrip t else s
  end.

(** [str.rstrip()]: the same scan, from the right end. *)
Definition rstrip (s : pystr) : pystr := rev (lstrip (rev s)).

(** [str.strip()]: the left scan first, then the right scan on what is left. *)
Definition strip (s : pystr) : pystr := rstrip (lstrip s).

Definition newline : pystr := [10].

End PyStr.
Import PyStr.

(** ** Python values *)

(** The values [json.dumps] may be handed.  [PyObject] stands for any value
    the encoder has no rule for (a set, bytes, an instance of a user class);
    floats are left out. *)
Inductive pyval : Type :=
| PyNone
| PyBool (b : bool)
| PyInt (z : Z)
| PyStr (s : pystr)
| PyList (items : list pyval)
| PyDict (items : list (pyval * pyval))
| PyObject.

(** Truth value of an object, as [if x:] tests it. *)
Definition truthy (v : pyval) : bool :=
  match v with
  | PyNone => false
  | PyBool b => b
  | PyInt z => negb (Z.eqb z 0)
  | PyStr s => nonempty s
  | PyList items => nonempty items
  | PyDict items => nonempty items
  | PyObject => true
  end.

(** The dict literal [{"raw_content": s}]. *)
Definition Record_ (s : pystr) : pyval :=
  PyDict [(PyStr (lit "raw_content"), PyStr s)].

(** ** log_parser *)

Definition log_parser (line : pystr) : pyval :=
  let stripped_line := strip line in
  if nonempty stripped_line then Record_ stripped_line
  else PyNone.

(** ** Exceptions *)

(** The exception classes the program's [except] clauses tell apart.  Every
    one is a subclass of [Exception]; [FileNotFoundError] is a subclass of
    [OSError], and [socket.error] is [OSError] itself; [OSError] stands for
    its other subclasses too ([NotADirectoryError], [IsADirectoryError],
    [PermissionError], [ConnectionRefusedError]).  [UnicodeEncodeError] and
    [OtherException] (a [ValueError], say) fall under none of the narrower
    clauses.  The
    interrupts outside [Exception] ([KeyboardInterrupt], [SystemExit]) come
    from the user or the interpreter, not from an operation of the program,
    and are not modelled. *)
Inductive exn : Type :=
| FileNotFoundError
| OSError
| TypeError
| OverflowError
| UnicodeEncodeError
| OtherException.

Definition is_FileNotFoundError (e : exn) : bool :=
  match e with FileNotFoundError => true | _ => false end.

(** [except socket.error] *)
Definition is_socket_error (e : exn) : bool :=
  match e with FileNotFoundError | OSError => true | _ => false end.

(** [except (TypeError, OverflowError)] *)
Definition is_TypeError_or_OverflowError (e : exn) : bool :=
  match e with TypeError | OverflowError => true | _ => false end.

(** What a call does: it returns a value or raises. *)
Inductive outcome (A : Type) : Type :=
| Return (a : A)
| Raise (e : exn).
Arguments Return {A} a.
Arguments Raise {A} e.

(** ** json.dumps *)

Module Json.

Definition hexdigit (n : N) : char :=
  nth (N.to_nat n) (lit "0123456789abcdef") 0.

(** The escape [\uXXXX] of a 16-bit unit. *)
Definition escape_u (n : N) : pystr :=
  lit "\u" ++ [hexdigit ((n / 4096) mod 16); hexdigit ((n / 256) mod 16);
               hexdigit ((n / 16) mod 16); hexdigit (n mod 16)].

(** One character under [ensure_ascii=True]: the short escapes, printable
    ASCII as it is, and everything else as one escape or a surrogate pair. *)
Definition escape_char (c : char) : pystr :=
  if c =? 34 then [92; 34]
  else if c =? 92 then [92; 92]
  else if c =? 10 then [92; 110]
  else if c =? 13 then [92; 114]
  else if c =? 9 then [92; 116]
  else if c =? 8 then [92; 98]
  else if c =? 12 then [92; 102]
  else if (32 <=? c) && (c <=? 126) then [c]
  else if c <? 0x10000 then escape_u c
  else
    let v := c - 0x10000 in
    escape_u (N.lor 0xd800 (N.land (N.shiftr v 10) 0x3ff))
    ++ escape_u (N.lor 0xdc00 (N.land v 0x3ff)).

Definition encode_basestring_ascii (s : pystr) : pystr :=
  34 :: flat_map escape_char s ++ [34].

Fixpoint uint_digits (u : Decimal.uint) : pystr :=
  match u with
  | Decimal.Nil => []
  | Decimal.D0 u => 48 :: uint_digits u
  | Decimal.D1 u => 49 :: uint_digits u
  | Decimal.D2 u => 50 :: uint_digits u
  | Decimal.D3 u => 51 :: uint_digits u
  | Decimal.D4 u => 52 :: uint_digits u
  | Decimal.D5 u => 53 :: uint_digits u
  | Decimal.D6 u => 54 :: uint_digits u
  | Decimal.D7 u => 55 :: uint_digits u
  | Decimal.D8 u => 56 :: uint_digits u
  | Decimal.D9 u => 57 :: uint_digits u
  end.

(** [str(n)] for an [int]. *)
Definition int_repr (z : Z) : pystr :=
  match Z.to_int z with
  | Decimal.Pos u => uint_digits u
  | Decimal.Neg u => 45 :: uint_digits u
  end.

(** [sep.join(parts)] *)
Fixpoint join (sep : pystr) (parts : list pystr) : pystr :=
  match parts with
  | [] => []
  | [p] => p
  | p :: rest => p ++ sep ++ join sep rest
  end.

(** The text of a dict key; a key of any other type is a [TypeError]. *)
Definition key_text (k : pyval) : outcome pystr :=
  match k with
  | PyStr s => Return s
  | PyBool true => Return (lit "true")
  | PyBool false => Return (lit "false")
  | PyNone => Return (lit "null")
  | PyInt z => Return (int_repr z)
  | _ => Raise TypeError
  end.

(** [json.dumps(v)] with its default arguments: [ensure_ascii=True],
    separators [", "] and [": "], keys in insertion order.  An integer is
    written out whatever its size and a value is encoded whatever its depth:
    the interpreter's limits on the digits of an integer and on the depth of
    recursion are not part of this description. *)
Fixpoint dumps (v : pyval) : outcome pystr :=
  match v with
  | PyNone => Return (lit "null")
  | PyBool true => Return (lit "true")
  | PyBool false => Return (lit "false")
  | PyInt z => Return (int_repr z)
  | PyStr s => Return (encode_basestring_ascii s)
  | PyList items =>
      let elems :=
        (fix elems (l : list pyval) : outcome (list pystr) :=
           match l with
           | [] => Return []
           | x :: r =>
               match dumps x with
               | Raise e => Raise e
               | Return sx =>
                   match elems r with
                   | Raise e => Raise e
                   | Return sr => Return (sx :: sr)
                   end
               end
           end) items in
      match elems with
      | Raise e => Raise e
      | Return parts => Return (lit "[" ++ join (lit ", ") parts ++ lit "]")
      end
  | PyDict items =>
      let members :=
        (fix members (l : list (pyval * pyval)) : outcome (list pystr) :=
           match l with
           | [] => Return []
           | (k, x) :: r =>
               match key_text k with
               | Raise e => Raise e
               | Return sk =>
                   match dumps x with
                   | Raise e => Raise e
                   | Return sx =>
                       match members r with
                       | Raise e => Raise e
                       | Return sr =>
                           Return ((encode_basestring_ascii sk ++ lit ": " ++ sx)
                                     :: sr)
                       end
                   end
               end
           end) items in
      match members with
      | Raise e => Raise e
      | Return parts => Return (lit "{" ++ join (lit ", ") parts ++ lit "}")
      end
  | PyObject => Raise TypeError
  end.

End Json.

(** ** str.encode('utf-8') *)

Module Utf8.

(** Bytes are numbers below 256. *)
Definition bytes := list N.

Definition encode_char (c : char) : outcome bytes :=
  if c <? 0x80 then Return [c]
  else if c <? 0x800 then
    Return [N.lor 0xC0 (N.shiftr c 6); N.lor 0x80 (N.land c 0x3F)]
  else if (0xD800 <=? c) && (c <=? 0xDFFF) then Raise UnicodeEncodeError
  else if c <? 0x10000 then
    Return [N.lor 0xE0 (N.shiftr c 12);
            N.lor 0x80 (N.land (N.shiftr c 6) 0x3F);
            N.lor 0x80 (N.land c 0x3F)]
  else
    Return [N.lor 0xF0 (N.land (N.shiftr c 18) 0x07);
            N.lor 0x80 (N.land (N.shiftr c 12) 0x3F);
            N.lor 0x80 (N.land (N.shiftr c 6) 0x3F);
            N.lor 0x80 (N.land c 0x3F)].

Fixpoint encode (s : pystr) : outcome bytes :=
  match s with
  | [] => Return []
  | c :: t =>
      match encode_char c with
      | Raise e => Raise e
      | Return b =>
          match encode t with
          | Raise e => Raise e
          | Return bt => Return (b ++ bt)
          end
      end
  end.

End Utf8.

(** ** The world: file system, network, console *)

(** A path is the sequence of its components; [os.path.join(p, name)] adds
    one. *)
Definition path := list pystr.
Definition path_join (p : path) (name : pystr) : path := p ++ [name].

(** What reading a file gives: [open] raises [f_open], or the file opens and
    iterating it yields the lines of [f_lines] (each with its line end, after
    lenient decoding); with [f_fail = Some (k, e)] the read after the k-th
    line raises [e].  Every [open] and every read described here comes back;
    an entry on which [open] waits without end (a FIFO that nobody writes to)
    has no description as a [file]. *)
Record file : Type := {
  f_open : option exn;
  f_lines : list pystr;
  f_fail : option (nat * exn)
}.

(** A directory lists its entries in the order the operating system returns
    them.  [File] is an entry that is not a directory, whatever opening it
    gives: a regular file, a symbolic link to one, a link that leads nowhere.
    [DirLink] is a symbolic link to a directory with the given entries, and
    [Locked] a directory that cannot be listed, though a path may still run
    through it. *)
Inductive node : Type :=
| File (name : pystr) (f : file)
| Dir (name : pystr) (entries : list node)
| DirLink (name : pystr) (entries : list node)
| Locked (name : pystr) (entries : list node).

Definition node_name (n : node) : pystr :=
  match n with
  | File name _ | Dir name _ | DirLink name _ | Locked name _ => name
  end.

Definition host := pystr.
Definition port := Z.

Inductive message : Type :=
| MsgNoData
| MsgConnected (h : host) (p : port)
| MsgSerializeError (data : pyval) (e : exn)
| MsgSocketSendError (e : exn)
| MsgSent (sent_count : nat)
| MsgConnectFailed (h : host) (p : port) (e : exn)
| MsgUnexpected (e : exn)
| MsgFileNotFound (filepath : path)
| MsgReadError (filepath : path) (e : exn)
| MsgFolderNotFound (folder : path)
| MsgProvideValidPath
| MsgScanning (folder : path)
| MsgNoFiles (folder : path)
| MsgFound (total_files : nat)
| MsgProgress (processed_count total_files : nat)
| MsgProcessingComplete
| MsgNoLines
| MsgPrepared (entries : nat)
| MsgWillRetry (seconds : N)
| MsgComplete.

(** What the program does to the outside, in the order it does it.  A network
    operation is recorded with its result. *)
Inductive event : Type :=
| EPrint (m : message)
| EConnect (h : host) (p : port) (timeout : N) (r : option exn)
| ESendall (buf : Utf8.bytes) (r : option exn)
| EClose
| ESleep (seconds : N).

(** [w_net n] is the fate of the n-th network operation of the run,
    [w_clock] counts the operations done so far, [w_trace] is the history,
    oldest event first. *)
Record world : Type := {
  w_fs : list node;
  w_net : nat -> option exn;
  w_clock : nat;
  w_trace : list event
}.

Definition emit (ev : event) (w : world) : world :=
  {| w_fs := w_fs w; w_net := w_net w; w_clock := w_clock w;
     w_trace := w_trace w ++ [ev] |}.

Definition tick (w : world) : world :=
  {| w_fs := w_fs w; w_net := w_net w; w_clock := S (w_clock w);
     w_trace := w_trace w |}.

(** ** The monad of effectful code *)

Definition M (A : Type) : Type := world -> outcome A * world.

Definition ret {A} (a : A) : M A := fun w => (Return a, w).

Definition raise {A} (e : exn) : M A := fun w => (Raise e, w).

Definition bind {A B} (c : M A) (k : A -> M B) : M B :=
  fun w =>
    match c w with
    | (Return a, w') => k a w'
    | (Raise e, w') => (Raise e, w')
    end.

Declare Scope py_scope.
Delimit Scope py_scope with py.
Notation "x <- c ;; k" := (bind c (fun x => k))
  (at level 61, c at next level, right associativity) : py_scope.
Notation "c ;; k" := (bind c (fun _ => k))
  (at level 61, right associativity) : py_scope.
Local Open Scope py_scope.

(** A pure call that may raise. *)
Definition lift {A} (o : outcome A) : M A := fun w => (o, w).

(** [try: body / except ...: handler]; the handler says which exceptions it
    takes. *)
Definition try_except {A} (body : M A) (handler : exn -> option (M A)) : M A :=
  fun w =>
    match body w with
    | (Return a, w') => (Return a, w')
    | (Raise e, w') =>
        match handler e with
        | Some h => h w'
        | None => (Raise e, w')
        end
    end.

(** [print] on a console that can encode whatever text it is given. *)
Definition print (m : message) : M unit := fun w => (Return tt, emit (EPrint m) w).

(** The path a message names. *)
Definition message_path (m : message) : option path :=
  match m with
  | MsgFileNotFound p | MsgReadError p _ | MsgFolderNotFound p
  | MsgScanning p | MsgNoFiles p => Some p
  | _ => None
  end.

(** [print] on a console that cannot encode every text; [console s] says
    whether it can encode [s].  A message that names a path is printed when
    the console can encode every component of the path; when it cannot, the
    encoder raises [UnicodeEncodeError] before anything is written.  Paths
    are the texts that come from the file system; the rest of what the
    program prints (its own ASCII messages, numbers, the host name, the texts
    of exceptions) is taken to be text the console can encode. *)
Definition print_on (console : pystr -> bool) (m : message) : M unit :=
  match message_path m with
  | Some p => if forallb console p then print m else raise UnicodeEncodeError
  | None => print m
  end.

(** A console that writes UTF-8 with the strict error handler, as
    [sys.stdout] does in a UTF-8 locale: it cannot encode a surrogate code
    point, which is what an undecodable byte of a file name becomes in the
    names [os.walk] yields. *)
Definition utf8_console (s : pystr) : bool :=
  match Utf8.encode s with Return _ => true | Raise _ => false end.

Definition sleep (seconds : N) : M unit :=
  fun w => (Return tt, emit (ESleep seconds) w).

(** One network operation: the world decides whether it fails. *)
Definition net_op (ev : option exn -> event) : M unit :=
  fun w =>
    let r := w_net w (w_clock w) in
    let w' := tick (emit (ev r) w) in
    match r with
    | None => (Return tt, w')
    | Some e => (Raise e, w')
    end.

Definition create_connection (h : host) (p : port) (timeout : N) : M unit :=
  net_op (EConnect h p timeout).

Definition sendall (buf : Utf8.bytes) : M unit := net_op (ESendall buf).

(** [with socket.create_connection(...) as sock: body]: the socket is closed
    however the body is left. *)
Definition with_connection {A} (h : host) (p : port) (timeout : N)
    (body : M A) : M A :=
  create_connection h p timeout ;;
  fun w => let (r, w') := body w in (r, emit EClose w').

(** *** Files *)

Fixpoint pystr_eqb (a b : pystr) : bool :=
  match a, b with
  | [], [] => true
  | x :: a', y :: b' => (x =? y) && pystr_eqb a' b'
  | _, _ => false
  end.

Definition find_entry (name : pystr) (entries : list node) : option node :=
  find (fun n => pystr_eqb (node_name n) name) entries.

(** The entry a path leads to, through directories and links to them. *)
Fixpoint resolve (entries : list node) (p : path) : option node :=
  match p with
  | [] => None
  | [name] => find_entry name entries
  | name :: rest =>
      match find_entry name entries with
      | Some (Dir _ sub) | Some (DirLink _ sub) | Some (Locked _ sub) =>
          resolve sub rest
      | _ => None
      end
  end.

(** Whether the path runs through an entry that is not a directory. *)
Fixpoint through_file (entries : list node) (p : path) : bool :=
  match p with
  | [] => false
  | [name] => false
  | name :: rest =>
      match find_entry name entries with
      | Some (File _ _) => true
      | Some (Dir _ sub) | Some (DirLink _ sub) | Some (Locked _ sub) =>
          through_file sub rest
      | None => false
      end
  end.

(** A path is handed to the operating system as bytes, encoded with the
    [surrogateescape] handler: the surrogates U+DC80 to U+DCFF go back to the
    bytes they stand for, any other surrogate is a [UnicodeEncodeError], and
    a NUL character in what is left is a [ValueError]. *)
Definition lone_surrogate (c : char) : bool :=
  (0xD800 <=? c) && (c <=? 0xDFFF) && negb ((0xDC80 <=? c) && (c <=? 0xDCFF)).

Definition fsencode_error (p : path) : option exn :=
  if existsb (existsb lone_surrogate) p then Some UnicodeEncodeError
  else if existsb (existsb (N.eqb 0)) p then Some OtherException
  else None.

Definition is_dir (n : node) : bool :=
  match n with File _ _ => false | _ => true end.

(** [os.path.isdir] *)
Definition isdir (p : path) : M bool :=
  fun w =>
    (Return match resolve (w_fs w) p with Some n => is_dir n | None => false end,
     w).

(** [open(filepath, 'r', encoding='utf-8', errors='ignore')].  A directory
    is refused with [IsADirectoryError] and a path that runs through a file
    with [NotADirectoryError], both of them [OSError]s; only a path that
    leads to nothing is a [FileNotFoundError].  A path that cannot be encoded
    for the operating system names no entry, so the check of
    [fsencode_error] stands where the path leads to nothing. *)
Definition open_ (filepath : path) : M file :=
  fun w =>
    match resolve (w_fs w) filepath with
    | Some (File _ f) =>
        match f_open f with
        | Some e => (Raise e, w)
        | None => (Return f, w)
        end
    | Some _ => (Raise OSError, w)
    | None =>
        match fsencode_error filepath with
        | Some e => (Raise e, w)
        | None =>
            if through_file (w_fs w) filepath then (Raise OSError, w)
            else (Raise FileNotFoundError, w)
        end
    end.

(** What [for line in f] sees: the lines it gets, and the exception that
    ends the iteration if one does. *)
Definition read_lines (f : file) : list pystr * option exn :=
  match f_fail f with
  | Some (k, e) =>
      if (k <=? List.length (f_lines f))%nat then (firstn k (f_lines f), Some e)
      else (f_lines f, None)
  | None => (f_lines f, None)
  end.

(** ** process_log_file *)

(** The [for] loop over the lines; [processed_data] is the list being built. *)
Fixpoint parse_lines (lines : list pystr) (processed_data : list pyval)
    : list pyval :=
  match lines with
  | [] => processed_data
  | line :: rest =>
      let parsed_log := log_parser line in
      parse_lines rest
        (if truthy parsed_log then processed_data ++ [parsed_log]
         else processed_data)
  end.

(** The [try] block.  [processed_data] is a local of the function, so what
    was appended before an exception is still there in the handler: the block
    gives back the list together with the exception that left it, if any. *)
Definition read_file (filepath : path) (processed_data : list pyval)
    : M (list pyval * option exn) :=
  fun w =>
    match open_ filepath w with
    | (Raise e, w') => (Return (processed_data, Some e), w')
    | (Return f, w') =>
        let (lines, err) := read_lines f in
        (Return (parse_lines lines processed_data, err), w')
    end.

(** [process_log_file], on the console whose [print] is given.  The two
    reports stand in the [except] clauses, outside the [try] block: what
    they raise leaves the function. *)
Definition process_log_file_with (print : message -> M unit) (filepath : path)
    : M (list pyval) :=
  let processed_data := [] in
  r <- read_file filepath processed_data ;;
  let (processed_data, exc) := r in
  match exc with
  | None => ret processed_data
  | Some e =>
      (if is_FileNotFoundError e then print (MsgFileNotFound filepath)
       else print (MsgReadError filepath e)) ;;
      ret processed_data
  end.

(** [process_log_file] on a console that can encode every path. *)
Definition process_log_file (filepath : path) : M (list pyval) :=
  process_log_file_with print filepath.

(** ** send_to_logstash *)

Local Open Scope nat_scope.

(** [range(start, stop, step)] for a positive step. *)
Definition range_step (start stop step : nat) : list nat :=
  map (fun k => start + k * step) (seq 0 ((stop - start + (step - 1)) / step)).

(** [l[i:j]] for indices that are not negative. *)
Definition slice {A} (l : list A) (i j : nat) : list A :=
  firstn (j - i) (skipn i l).

Definition LOGSTASH_HOST : host := lit "localhost".
Definition LOGSTASH_PORT : port := 50000%Z.
Definition RECONNECT_DELAY_SECONDS : N := 5%N.

Definition batch_size : nat := 100.

(** The inner [for data in batch] loop, building [batch_str]. *)
Fixpoint serialize_batch (batch : list pyval) (batch_str : pystr) : M pystr :=
  match batch with
  | [] => ret batch_str
  | data :: rest =>
      batch_str' <-
        try_except
          (json_string <- lift (Json.dumps data) ;;
           ret (batch_str ++ (json_string ++ newline)))
          (fun json_err =>
             if is_TypeError_or_OverflowError json_err
             then Some (print (MsgSerializeError data json_err) ;; ret batch_str)
             else None) ;;
      serialize_batch rest batch_str'
  end.

(** How the batch loop is left: it runs to its end, or a [return] inside it
    leaves the function. *)
Inductive loop_exit : Type :=
| Finished (sent_count : nat)
| Returned (result : bool).

(** The [for i in range(0, total_to_send, batch_size)] loop. *)
Fixpoint send_batches (data_list : list pyval) (indices : list nat)
    (sent_count : nat) : M loop_exit :=
  match indices with
  | [] => ret (Finished sent_count)
  | i :: rest =>
      let batch := slice data_list i (i + batch_size) in
      batch_str <- serialize_batch batch [] ;;
      if negb (nonempty batch_str) then send_batches data_list rest sent_count
      else
        r <- try_except
               (buf <- lift (Utf8.encode batch_str) ;;
                sendall buf ;;
                ret (Finished (sent_count + List.length batch)))
               (fun send_err =>
                  if is_socket_error send_err
                  then Some (print (MsgSocketSendError send_err) ;;
                             ret (Returned false))
                  else None) ;;
        match r with
        | Returned b => ret (Returned b)
        | Finished sent_count' => send_batches data_list rest sent_count'
        end
  end.

Definition send_to_logstash (h : host) (p : port) (data_list : list pyval)
    : M bool :=
  if negb (nonempty data_list) then
    print MsgNoData ;; ret true
  else
    try_except
      (with_connection h p 10%N
         (print (MsgConnected h p) ;;
          let total_to_send := List.length data_list in
          r <- send_batches data_list (range_step 0 total_to_send batch_size) 0 ;;
          match r with
          | Returned b => ret b
          | Finished sent_count => print (MsgSent sent_count) ;; ret true
          end))
      (fun e =>
         if is_socket_error e
         then Some (print (MsgConnectFailed h p e) ;; ret false)
         else Some (print (MsgUnexpected e) ;; ret false)).

(** ** main *)

(** One item of [os.walk]: the directory, its subdirectories, its files. *)
Definition walk_item : Type := path * list pystr * list pystr.

Definition dirnames (entries : list node) : list pystr :=
  map node_name (filter is_dir entries).

Definition filenames (entries : list node) : list pystr :=
  map node_name (filter (fun n => negb (is_dir n)) entries).

(** [os.walk(top)], top-down and with [followlinks=False]: the directory
    itself, then each subdirectory in listing order.  [top] is listed through
    a link too; below it a link to a directory is named among the
    subdirectories and not entered.  A directory that cannot be listed yields
    nothing, and no error: [onerror] is [None]. *)
Fixpoint walk (top : path) (n : node) : list walk_item :=
  match n with
  | File _ _ => []
  | Locked _ _ => []
  | Dir _ entries | DirLink _ entries =>
      (top, dirnames entries, filenames entries)
      :: (fix subdirs (l : list node) : list walk_item :=
            match l with
            | [] => []
            | e :: r =>
                match e with
                | Dir name _ | Locked name _ => walk (path_join top name) e
                | DirLink _ _ => []
                | File _ _ => []
                end ++ subdirs r
            end) entries
  end.

Definition os_walk (top : path) : M (list walk_item) :=
  fun w =>
    (Return match resolve (w_fs w) top with
            | Some n => walk top n
            | None => []
            end, w).

(** The two nested loops that fill [all_files]. *)
Fixpoint collect_files (items : list walk_item) (all_files : list path)
    : list path :=
  match items with
  | [] => all_files
  | (dirpath, _, names) :: rest =>
      collect_files rest
        (fold_left (fun acc filename => acc ++ [path_join dirpath filename])
                   names all_files)
  end.

(** The processing loop, on the console whose [print] is given; the
    percentage it prints is a floating-point value and is left out of the
    message.  The call of [process_log_file] is in no [try]. *)
Fixpoint process_files_with (print : message -> M unit) (files : list path)
    (total_files : nat) (data_to_send : list pyval) (processed_count : nat)
    : M (list pyval) :=
  match files with
  | [] => ret data_to_send
  | log_file :: rest =>
      records <- process_log_file_with print log_file ;;
      let data_to_send := data_to_send ++ records in
      let processed_count := processed_count + 1 in
      print (MsgProgress processed_count total_files) ;;
      process_files_with print rest total_files data_to_send processed_count
  end.

(** The loop on a console that can encode every path. *)
Definition process_files (files : list path) (total_files : nat)
    (data_to_send : list pyval) (processed_count : nat) : M (list pyval) :=
  process_files_with print files total_files data_to_send processed_count.

(** How a run of [main] stands: it has come back, or it is still in the send
    loop after the iterations it was given. *)
Inductive run_status : Type :=
| Exited
| Retrying.

(** The [while not success] loop; [fuel] bounds the iterations observed. *)
Fixpoint send_loop (fuel : nat) (h : host) (p : port)
    (data_to_send : list pyval) : M run_status :=
  match fuel with
  | O => ret Retrying
  | S fuel' =>
      success <- send_to_logstash h p data_to_send ;;
      if negb success then
        print (MsgWillRetry RECONNECT_DELAY_SECONDS) ;;
        sleep RECONNECT_DELAY_SECONDS ;;
        send_loop fuel' h p data_to_send
      else ret Exited
  end.

(** Lines 125 to 157, on the console whose [print] is given: the scan and
    the processing loop, giving [data_to_send]; [None] when no file was
    found.  None of these lines is in a [try]. *)
Definition gather_with (print : message -> M unit) (log_folder_path : path)
    : M (option (list pyval)) :=
  print (MsgScanning log_folder_path) ;;
  items <- os_walk log_folder_path ;;
  let all_files := collect_files items [] in
  if negb (nonempty all_files) then
    print (MsgNoFiles log_folder_path) ;; ret None
  else
    let total_files := List.length all_files in
    print (MsgFound total_files) ;;
    data_to_send <- process_files_with print all_files total_files [] 0 ;;
    print MsgProcessingComplete ;;
    ret (Some data_to_send).

Definition gather (log_folder_path : path) : M (option (list pyval)) :=
  gather_with print log_folder_path.

(** [main], after the arguments are parsed, on the console whose [print] is
    given. *)
Definition main_with (print : message -> M unit) (fuel : nat)
    (log_folder_path : path) (logstash_host : host) (logstash_port : port)
    : M run_status :=
  ok <- isdir log_folder_path ;;
  if negb ok then
    print (MsgFolderNotFound log_folder_path) ;;
    print MsgProvideValidPath ;;
    ret Exited
  else
    g <- gather_with print log_folder_path ;;
    match g with
    | None => ret Exited
    | Some data_to_send =>
        if negb (nonempty data_to_send) then
          print MsgNoLines ;; ret Exited
        else
          print (MsgPrepared (List.length data_to_send)) ;;
          st <- send_loop fuel logstash_host logstash_port data_to_send ;;
          match st with
          | Retrying => ret Retrying
          | Exited => print MsgComplete ;; ret Exited
          end
    end.

(** [main] on a console that can encode every path. *)
Definition main (fuel : nat) (log_folder_path : path) (logstash_host : host)
    (logstash_port : port) : M run_status :=
  main_with print fuel log_folder_path logstash_host logstash_port.

(** Induction on values, through the lists nested in them. *)
Section PyvalInd.

Variable P : pyval -> Prop.
Hypothesis HNone : P PyNone.
Hypothesis HBool : forall b, P (PyBool b).
Hypothesis HInt : forall z, P (PyInt z).
Hypothesis HStr : forall s, P (PyStr s).
Hypothesis HList : forall items, Forall P items -> P (PyList items).
Hypothesis HDict :
  forall items, Forall (fun kv => P (snd kv)) items -> P (PyDict items).
Hypothesis HObject : P PyObject.

Fixpoint pyval_nested_ind (v : pyval) : P v :=
  match v with
  | PyNone => HNone
  | PyBool b => HBool b
  | PyInt z => HInt z
  | PyStr s => HStr s
  | PyList items =>
      HList items
        ((fix go (l : list pyval) : Forall P l :=
            match l with
            | [] => Forall_nil P
            | x :: r => Forall_cons x (pyval_nested_ind x) (go r)
            end) items)
  | PyDict items =>
      HDict items
        ((fix go (l : list (pyval * pyval))
            : Forall (fun kv => P (snd kv)) l :=
            match l with
            | [] => Forall_nil _
            | kv :: r =>
                Forall_cons kv (pyval_nested_ind (snd kv)) (go r)
            end) items)
  | PyObject => HObject
  end.

End PyvalInd.

(** ** Observations *)

(** The records a file contributes to a run in world [w]. *)
Definition file_records (w : world) (filepath : path) : list pyval :=
  match process_log_file filepath w with
  | (Return records, _) => records
  | (Raise _, _) => []
  end.

(** The report [process_log_file] prints for exception [e]. *)
Definition file_error_message (filepath : path) (e : exn) : message :=
  if is_FileNotFoundError e then MsgFileNotFound filepath
  else MsgReadError filepath e.

(** Text of ASCII characters only. *)
Definition is_ascii (s : pystr) : bool := forallb (fun c => (c <? 128)%N) s.

(** The JSON encodings of the elements of a list, as [Json.dumps] computes
    them for a [list] value. *)
Fixpoint dumps_elems (l : list pyval) : outcome (list pystr) :=
  match l with
  | [] => Return []
  | x :: r =>
      match Json.dumps x with
      | Raise e => Raise e
      | Return sx =>
          match dumps_elems r with
          | Raise e => Raise e
          | Return sr => Return (sx :: sr)
          end
      end
  end.

(** The same for the members of a [dict]. *)
Fixpoint dumps_members (l : list (pyval * pyval)) : outcome (list pystr) :=
  match l with
  | [] => Return []
  | (k, x) :: r =>
      match Json.key_text k with
      | Raise e => Raise e
      | Return sk =>
          match Json.dumps x with
          | Raise e => Raise e
          | Return sx =>
              match dumps_members r with
              | Raise e => Raise e
              | Return sr =>
                  Return ((Json.encode_basestring_ascii sk ++ lit ": " ++ sx)
                            :: sr)
              end
          end
      end
  end.

(** The world after [evs] more events, [ops] of them network operations. *)
Definition step_world (evs : list event) (ops : nat) (w : world) : world :=
  {| w_fs := w_fs w; w_net := w_net w; w_clock := ops + w_clock w;
     w_trace := w_trace w ++ evs |}.

(** The line a record puts on the wire: its JSON text and a newline; nothing
    when it does not serialize. *)
Definition wire_line (data : pyval) : pystr :=
  match Json.dumps data with
  | Return json_string => json_string ++ newline
  | Raise _ => []
  end.

Definition serializable (data : pyval) : Prop :=
  exists json_string, Json.dumps data = Return json_string.

(** The reports of the records of a batch that do not serialize. *)
Definition serialize_errors (batch : list pyval) : list event :=
  flat_map (fun data =>
              match Json.dumps data with
              | Return _ => []
              | Raise e => [EPrint (MsgSerializeError data e)]
              end) batch.

(** The batches the send loop cuts [data_list] into. *)
Definition batches (data_list : list pyval) : list (list pyval) :=
  map (fun i => slice data_list i (i + batch_size))
      (range_step 0 (List.length data_list) batch_size).

(** The buffers handed to [sendall], in order. *)
Definition writes (evs : list event) : list Utf8.bytes :=
  flat_map (fun ev => match ev with ESendall buf _ => [buf] | _ => [] end) evs.

(** The results of the network operations, in order. *)
Definition net_results (evs : list event) : list (option exn) :=
  flat_map (fun ev =>
              match ev with
              | EConnect _ _ _ r => [r]
              | ESendall _ r => [r]
              | _ => []
              end) evs.

(** The connection attempts among the events. *)
Definition connects (evs : list event) : nat :=
  List.length (filter (fun ev => match ev with
                                 | EConnect _ _ _ _ => true
                                 | _ => false
                                 end) evs).

(** A network that accepts everything from now on. *)
Definition accepting (w : world) : Prop :=
  forall i, w_clock w <= i -> w_net w i = None.

Arguments batch_size : simpl never.

(** Every network operation of the list succeeded. *)
Definition all_ok (rs : list (option exn)) : Prop :=
  Forall (fun r => r = None) rs.

(** The last network operation of the list failed with [e], and no earlier
    one failed. *)
Definition fails_last (rs : list (option exn)) (e : exn) : Prop :=
  exists pre, rs = pre ++ [Some e] /\ all_ok pre.

(** The fates the world holds for its next [n] network operations. *)
Definition oracle_results (w : world) (n : nat) : list (option exn) :=
  map (w_net w) (seq (w_clock w) n).

(** From [w] the events [evs] lead to [w']: the network operations among them
    are the next operations of the world, with the fates it holds for them. *)
Definition traced (w w' : world) (evs : list event) : Prop :=
  w' = step_world evs (List.length (net_results evs)) w
  /\ net_results evs = oracle_results w (List.length (net_results evs)).

(** Every serialization report among the events is about a record of
    [data_list] that [Json.dumps] refuses. *)
Definition reports_within (data_list : list pyval) (evs : list event) : Prop :=
  forall d e, In (EPrint (MsgSerializeError d e)) evs ->
              In d data_list /\ Json.dumps d = Raise e.

(** The pauses among the events, with their lengths in seconds. *)
Definition sleeps (evs : list event) : list N :=
  flat_map (fun ev => match ev with ESleep s => [s] | _ => [] end) evs.

(** What the send loop does between a failed attempt and the next one. *)
Definition retry_pause : list event :=
  [EPrint (MsgWillRetry RECONNECT_DELAY_SECONDS);
   ESleep RECONNECT_DELAY_SECONDS].

(** [failed_attempts h p data n w w']: from [w], [n] calls of
    [send_to_logstash] on [data] in a row return [False], each followed by
    the retry notice and the pause, and leave the world [w']. *)
Inductive failed_attempts (h : host) (p : port) (data : list pyval)
    : nat -> world -> world -> Prop :=
| failed_none (w : world) : failed_attempts h p data 0 w w
| failed_more (n : nat) (w w1 w' : world) :
    send_to_logstash h p data w = (Return false, w1) ->
    failed_attempts h p data n (step_world retry_pause 0 w1) w' ->
    failed_attempts h p data (S n) w w'.

(** A network whose every operation fails. *)
Definition never_accepting (w : world) : Prop :=
  forall i, w_net w i <> None.

(** ** Sample worlds *)

(** A world with the given file system and network, before anything ran. *)
Definition initial_world (fs : list node) (net : nat -> option exn) : world :=
  {| w_fs := fs; w_net := net; w_clock := 0; w_trace := [] |}.

(** A network on which every operation succeeds. *)
Definition net_accepting : nat -> option exn := fun _ => None.

(** A file that opens and reads to its end. *)
Definition plain_file (lines : list pystr) : file :=
  {| f_open := None; f_lines := lines; f_fail := None |}.

(** [app.log] has three lines; the read after the second one fails. *)
Definition failing_log : file :=
  {| f_open := None;
     f_lines := [lit "one" ++ newline; lit "two" ++ newline;
                 lit "three" ++ newline];
     f_fail := Some (2%nat, OSError) |}.

Definition failing_log_world : world :=
  initial_world [File (lit "app.log") failing_log] net_accepting.

(** 150 records, and a network on which the second write of the first
    connection fails and everything else succeeds. *)
Definition sample_records : list pyval :=
  map (fun k => Record_ (lit "entry " ++ Json.int_repr (Z.of_nat k)))
      (seq 0 150).

Definition net_second_write_fails : nat -> option exn :=
  fun i => if Nat.eqb i 2 then Some OSError else None.

Definition second_write_fails_world : world :=
  initial_world [] net_second_write_fails.

(** The scenario of the two files.  [a.txt] holds the line foo, an empty
    line and the line bar with two blanks on either side, [b.txt] the line
    baz; [eol] says whether the last line of the file ends with a newline. *)
Definition a_txt (eol : bool) : node :=
  File (lit "a.txt")
       (plain_file [lit "foo" ++ newline; newline;
                    lit "  bar  " ++ (if eol then newline else [])]).

Definition b_txt (eol : bool) : node :=
  File (lit "b.txt")
       (plain_file [lit "baz" ++ (if eol then newline else [])]).

(** The root directory [logs] with the given listing. *)
Definition scenario_world (entries : list node) : world :=
  initial_world [Dir (lit "logs") entries] net_accepting.

Definition scenario_expected : list pyval :=
  [Record_ (lit "foo"); Record_ (lit "bar"); Record_ (lit "baz")].

(** ** Further observations *)

(** Text of printable ASCII characters only, from the blank to the tilde. *)
Definition is_printable (s : pystr) : bool :=
  forallb (fun c => (32 <=? c)%N && (c <=? 126)%N) s.

(** The lines of a file that are not blank, trimmed. *)
Definition nonblank_trimmed (lines : list pystr) : list pystr :=
  map strip (filter (fun line => nonempty (strip line)) lines).

(** Induction on directory trees, through the listings nested in them. *)
Section NodeInd.

Variable P : node -> Prop.
Hypothesis HFile : forall name f, P (File name f).
Hypothesis HDir : forall name entries, Forall P entries -> P (Dir name entries).
Hypothesis HDirLink :
  forall name entries, Forall P entries -> P (DirLink name entries).
Hypothesis HLocked :
  forall name entries, Forall P entries -> P (Locked name entries).

Fixpoint node_nested_ind (n : node) : P n :=
  let go :=
    fix go (l : list node) : Forall P l :=
      match l with
      | [] => Forall_nil P
      | e :: r => Forall_cons e (node_nested_ind e) (go r)
      end in
  match n with
  | File name f => HFile name f
  | Dir name entries => HDir name entries (go entries)
  | DirLink name entries => HDirLink name entries (go entries)
  | Locked name entries => HLocked name entries (go entries)
  end.

End NodeInd.

(** What [os.walk] lists at its top: the entries of a directory, through a
    link too; nothing for a directory it cannot list, nor for a file. *)
Definition listing (n : node) : option (list node) :=
  match n with
  | Dir _ entries | DirLink _ entries => Some entries
  | File _ _ | Locked _ _ => None
  end.

(** [file_below entries rel]: from a directory with these entries, the
    relative path [rel] leads to an entry that is not a directory, through
    directories that are neither links nor closed to listing. *)
Inductive file_below : list node -> path -> Prop :=
| file_here (entries : list node) (fname : pystr) (f : file) :
    In (File fname f) entries -> file_below entries [fname]
| file_under (entries : list node) (dname : pystr) (sub : list node)
    (rel : path) :
    In (Dir dname sub) entries ->
    file_below sub rel ->
    file_below entries (dname :: rel).

(** The number of entries that are not directories in and below an entry,
    links and unlistable directories left aside. *)
Fixpoint files_in (n : node) : nat :=
  match n with
  | File _ _ => 1
  | Dir _ entries =>
      (fix go (l : list node) : nat :=
         match l with
         | [] => 0
         | e :: r => files_in e + go r
         end) entries
  | DirLink _ _ => 0
  | Locked _ _ => 0
  end.

(** The same below the top of a scan. *)
Definition files_found (n : node) : nat :=
  match listing n with
  | Some entries => list_sum (map files_in entries)
  | None => 0
  end.

(** The folder [logs]: the file [a.log], the directory [old] with [b.log], a
    link [link] to a directory with [r.log], and a directory [private] that
    cannot be listed, with [s.log]. *)
Definition linked_tree : node :=
  Dir (lit "logs")
      [File (lit "a.log") (plain_file [lit "a" ++ newline]);
       Dir (lit "old") [File (lit "b.log") (plain_file [lit "b" ++ newline])];
       DirLink (lit "link")
               [File (lit "r.log") (plain_file [lit "r" ++ newline])];
       Locked (lit "private")
              [File (lit "s.log") (plain_file [lit "s" ++ newline])]].

(** A record of the pipeline, or a value the encoder has no rule for. *)
Definition record_or_refused (d : pyval) : Prop :=
  (exists s, d = Record_ s) \/ d = PyObject.

(** The name [os.walk] yields for a file whose name is the byte FF followed
    by [.log]: the byte has become the surrogate U+DCFF. *)
Definition undecodable_name : pystr := 0xDCFF%N :: lit ".log".

(** That file holds the lines of [failing_log]; [app.log] is next to it. *)
Definition undecodable_world : world :=
  initial_world [File undecodable_name failing_log;
                 File (lit "app.log") (plain_file [lit "one" ++ newline])]
                net_accepting.

(** The same two files, the first one closed to the user: [open] is refused
    with [PermissionError]. *)
Definition unreadable_world : world :=
  initial_world [File undecodable_name
                      {| f_open := Some OSError; f_lines := [];
                         f_fail := None |};
                 File (lit "app.log") (plain_file [lit "one" ++ newline])]
                net_accepting.

(** Whether [Json.dumps] takes the value. *)
Definition serializes (data : pyval) : bool :=
  match Json.dumps data with Return _ => true | Raise _ => false end.

(** The text the inner loop builds for a batch. *)
Definition batch_text (batch : list pyval) : pystr := flat_map wire_line batch.

(** The buffers of the batches whose text is not empty: what the send loop
    writes when nothing stops it. *)
Definition payloads (data_list : list pyval) : list Utf8.bytes :=
  filter nonempty (map batch_text (batches data_list)).

(** What the send loop does for one batch on a network that accepts: the
    reports of the records that do not serialize, then the write, unless the
    text is empty. *)
Definition batch_events (batch : list pyval) : list event :=
  serialize_errors batch
  ++ (if nonempty (batch_text batch)
      then [ESendall (batch_text batch) None] else []).

(** What a batch adds to [sent_count]. *)
Definition batch_sent (batch : list pyval) : nat :=
  if nonempty (batch_text batch) then List.length batch else 0.

(** The serialization reports among the events. *)
Definition serialization_reports (evs : list event) : list event :=
  filter (fun ev => match ev with
                    | EPrint (MsgSerializeError _ _) => true
                    | _ => false
                    end) evs.

(** The closings of a connection among the events. *)
Definition closes (evs : list event) : nat :=
  List.length (filter (fun ev => match ev with EClose => true | _ => false end)
                      evs).

(** The events are all prints. *)
Definition prints_only (evs : list event) : Prop :=
  Forall (fun ev => exists m, ev = EPrint m) evs.

(** The events of a call that delivers every batch. *)
Definition delivery (h : host) (p : port) (data_list : list pyval)
    : list event :=
  [EConnect h p 10%N None; EPrint (MsgConnected h p)]
  ++ map (fun b => ESendall (batch_text b) None) (batches data_list)
  ++ [EPrint (MsgSent (List.length data_list)); EClose].

(** The events of a call whose connection fails with [e]. *)
Definition refusal (h : host) (p : port) (e : exn) : list event :=
  [EConnect h p 10%N (Some e);
   EPrint (if is_socket_error e then MsgConnectFailed h p e
           else MsgUnexpected e)].

(** The events of a call whose write of batch [j] fails with [e], the
    batches before it having been written. *)
Definition broken_delivery (h : host) (p : port) (data_list : list pyval)
    (j : nat) (e : exn) : list event :=
  [EConnect h p 10%N None; EPrint (MsgConnected h p)]
  ++ map (fun b => ESendall (batch_text b) None) (firstn j (batches data_list))
  ++ [ESendall (batch_text (nth j (batches data_list) [])) (Some e)]
  ++ (if is_socket_error e
      then [EPrint (MsgSocketSendError e); EClose]
      else [EClose; EPrint (MsgUnexpected e)]).

(** A network that refuses the first two operations and accepts the rest. *)
Definition net_refuses_twice : nat -> option exn :=
  fun i => if Nat.ltb i 2 then Some OSError else None.




(** * Properties *)

(** ** Trimming *)

Lemma lstrip_idem (s : pystr) : lstrip (lstrip s) = lstrip s.
Proof.
  induction s as [|c t IH]; simpl; [reflexivity|].
  destruct (isspace c) eqn:E; [exact IH|].
  simpl. now rewrite E.
Qed.

Lemma lstrip_head (s : pystr) (c : char) (t : pystr) :
  lstrip s = c :: t -> isspace c = false.
Proof.
  induction s as [|d u IH]; simpl; [discriminate|].
  destruct (isspace d) eqn:E; [exact IH|].
  intros H. injection H as -> _. exact E.
Qed.

Lemma lstrip_keeps (c : char) (t : pystr) :
  isspace c = false -> lstrip (c :: t) = c :: t.
Proof. intros E. simpl. now rewrite E. Qed.

(** What [lstrip] removes is whitespace, and nothing else goes. *)
Lemma lstrip_split (s : pystr) :
  exists ws, s = ws ++ lstrip s /\ forallb isspace ws = true.
Proof.
  induction s as [|c t [ws [Hs Hw]]]; simpl.
  - now exists [].
  - destruct (isspace c) eqn:E.
    + exists (c :: ws). simpl. rewrite E, Hw. split; [now f_equal|reflexivity].
    + now exists [].
Qed.

Lemma lstrip_snoc (l : pystr) (c : char) :
  isspace c = false -> exists v, lstrip (l ++ [c]) = v ++ [c].
Proof.
  intros E. induction l as [|d u [v IH]]; simpl.
  - rewrite E. now exists [].
  - destruct (isspace d).
    + now exists v.
    + now exists (d :: u).
Qed.

Lemma rstrip_idem (s : pystr) : rstrip (rstrip s) = rstrip s.
Proof. unfold rstrip. now rewrite rev_involutive, lstrip_idem. Qed.

Lemma rstrip_head (c : char) (u : pystr) :
  isspace c = false -> exists v, rstrip (c :: u) = c :: v.
Proof.
  intros E. unfold rstrip. simpl.
  destruct (lstrip_snoc (rev u) c E) as [v ->].
  exists (rev v). now rewrite rev_app_distr.
Qed.

Lemma rstrip_split (s : pystr) :
  exists ws, s = rstrip s ++ ws /\ forallb isspace ws = true.
Proof.
  unfold rstrip. destruct (lstrip_split (rev s)) as [ws [Hs Hw]].
  exists (rev ws). split.
  - rewrite <- rev_app_distr, <- Hs. now rewrite rev_involutive.
  - rewrite forallb_forall in *. intros x Hx. apply Hw. now apply in_rev.
Qed.

Lemma rstrip_last (s v : pystr) (c : char) :
  rstrip s = v ++ [c] -> isspace c = false.
Proof.
  unfold rstrip. intros H.
  apply (f_equal (@rev char)) in H.
  rewrite rev_involutive, rev_app_distr in H. simpl in H.
  exact (lstrip_head _ _ _ H).
Qed.

Lemma lstrip_strip (s : pystr) : lstrip (strip s) = strip s.
Proof.
  unfold strip. destruct (lstrip s) as [|c u] eqn:E; [reflexivity|].
  pose proof (lstrip_head _ _ _ E) as Hc.
  destruct (rstrip_head c u Hc) as [v ->].
  now apply lstrip_keeps.
Qed.

Lemma strip_idem (s : pystr) : strip (strip s) = strip s.
Proof.
  unfold strip at 1. rewrite lstrip_strip.
  unfold strip. apply rstrip_idem.
Qed.

(** [strip] takes whitespace off both ends and nothing else, and what it
    leaves neither begins nor ends with whitespace. *)
Lemma strip_split (s : pystr) :
  exists l r, s = l ++ strip s ++ r
              /\ forallb isspace l = true /\ forallb isspace r = true.
Proof.
  destruct (lstrip_split s) as [l [Hl Wl]].
  destruct (rstrip_split (lstrip s)) as [r [Hr Wr]].
  exists l, r. unfold strip. now rewrite <- Hr.
Qed.

Lemma strip_ends (s : pystr) :
  (forall c t, strip s = c :: t -> isspace c = false)
  /\ (forall v c, strip s = v ++ [c] -> isspace c = false).
Proof.
  split.
  - intros c t H. rewrite <- lstrip_strip in H. exact (lstrip_head _ _ _ H).
  - intros v c H. exact (rstrip_last _ _ _ H).
Qed.

Lemma lstrip_nil_iff (s : pystr) :
  lstrip s = [] <-> forallb isspace s = true.
Proof.
  induction s as [|c t IH]; simpl; [tauto|].
  destruct (isspace c); simpl; [exact IH|].
  split; discriminate.
Qed.

(** Trimming leaves nothing exactly when the text holds nothing but
    whitespace. *)
Lemma strip_nil_iff (s : pystr) :
  strip s = [] <-> forallb isspace s = true.
Proof.
  rewrite <- lstrip_nil_iff. unfold strip.
  destruct (lstrip s) as [|c u] eqn:E.
  - split; reflexivity.
  - destruct (rstrip_head c u (lstrip_head _ _ _ E)) as [v ->].
    split; discriminate.
Qed.

(** ** log_parser *)

(** C1: [log_parser] skips a line (returns [None]) exactly when the line
    holds nothing but whitespace, so that nothing is left of it once the
    whitespace at its two ends is removed.  Any other line is whitespace, then
    a text that neither begins nor ends with whitespace, then whitespace, and
    [log_parser] returns the record whose [raw_content] is exactly that
    text. *)
Theorem log_parser_skip_iff_blank (line : pystr) :
  (log_parser line = PyNone <-> forallb isspace line = true)
  /\ (forallb isspace line = false ->
      exists l s r,
        line = l ++ s ++ r
        /\ forallb isspace l = true /\ forallb isspace r = true
        /\ (exists c t, s = c :: t /\ isspace c = false)
        /\ (exists v c, s = v ++ [c] /\ isspace c = false)
        /\ log_parser line = Record_ s).
Proof.
  split.
  - rewrite <- strip_nil_iff. unfold log_parser. cbv zeta.
    destruct (strip line); simpl; split; (reflexivity || discriminate).
  - intros Hblank.
    destruct (strip_split line) as [l [r [Hs [Wl Wr]]]].
    destruct (strip_ends line) as [Hhd Hlast].
    exists l, (strip line), r.
    assert (Hne : strip line <> []).
    { intros E. apply strip_nil_iff in E. congruence. }
    repeat split; auto.
    + destruct (strip line) as [|c t] eqn:E; [contradiction|].
      exists c, t. split; [reflexivity|]. now apply (Hhd c t).
    + destruct (exists_last Hne) as [v [c E]].
      exists v, c. split; [exact E|]. now apply (Hlast v c).
    + unfold log_parser. cbv zeta.
      destruct (strip line); [contradiction|reflexivity].
Qed.

Example log_parser_skip_iff_blank_witness :
  log_parser (lit "   ") = PyNone
  /\ log_parser (lit "  bar  ") = Record_ (lit "bar")
  /\ lit "  bar  " = lit "  " ++ lit "bar" ++ lit "  ".
Proof.
  split; [|split; [|reflexivity]].
  - apply (proj1 (log_parser_skip_iff_blank (lit "   "))). reflexivity.
  - destruct (proj2 (log_parser_skip_iff_blank (lit "  bar  ")) eq_refl)
      as [l [s [r [_ [_ [_ [_ [_ H]]]]]]]].
    rewrite H. f_equal.
    assert (E : log_parser (lit "  bar  ") = Record_ (lit "bar"))
      by reflexivity.
    rewrite E in H. now injection H.
Defined.

(** C8: parsing is idempotent on its own output: when [log_parser] returns a
    record, parsing that record's [raw_content] returns the same record. *)
Theorem log_parser_idempotent (line s : pystr) :
  log_parser line = Record_ s -> log_parser s = Record_ s.
Proof.
  unfold log_parser. cbv zeta.
  destruct (nonempty (strip line)) eqn:E; [|discriminate].
  intros H. injection H as <-.
  now rewrite strip_idem, E.
Qed.

Example log_parser_idempotent_witness :
  log_parser (lit "  bar  ") = Record_ (lit "bar")
  /\ log_parser (lit "bar") = Record_ (lit "bar").
Proof.
  assert (H : log_parser (lit "  bar  ") = Record_ (lit "bar")) by reflexivity.
  split; [exact H|].
  exact (log_parser_idempotent (lit "  bar  ") (lit "bar") H).
Defined.

(** ** process_log_file *)

Lemma parse_lines_acc (lines : list pystr) (acc : list pyval) :
  parse_lines lines acc = acc ++ parse_lines lines [].
Proof.
  revert acc. induction lines as [|line rest IH]; intros acc; simpl.
  - now rewrite app_nil_r.
  - rewrite IH. rewrite (IH (if truthy _ then _ else _)).
    destruct (truthy (log_parser line)); simpl; [|reflexivity].
    now rewrite <- app_assoc.
Qed.

Lemma parse_lines_app (l1 l2 : list pystr) (acc : list pyval) :
  parse_lines (l1 ++ l2) acc = parse_lines l2 (parse_lines l1 acc).
Proof.
  revert acc. induction l1 as [|line rest IH]; intros acc; simpl; [reflexivity|].
  apply IH.
Qed.

(** The records of the lines read so far begin the records of the file. *)
Lemma parse_lines_firstn (k : nat) (lines : list pystr) :
  exists rest,
    parse_lines lines [] = parse_lines (firstn k lines) [] ++ rest.
Proof.
  exists (parse_lines (skipn k lines) []).
  rewrite <- (firstn_skipn k lines) at 1.
  rewrite parse_lines_app. apply parse_lines_acc.
Qed.

(** Everything [parse_lines] appends is a record of a non-blank trimmed
    line. *)
Lemma parse_lines_records (lines : list pystr) (r : pyval) :
  In r (parse_lines lines []) ->
  exists line, In line lines /\ strip line <> [] /\ r = Record_ (strip line).
Proof.
  induction lines as [|line rest IH]; simpl; [tauto|].
  rewrite parse_lines_acc. intros H. apply in_app_or in H as [H|H].
  - unfold log_parser in H. cbv zeta in H.
    destruct (strip line) as [|c t] eqn:E; simpl in H; [tauto|].
    destruct H as [<-|[]]. exists line. rewrite E. repeat split; auto.
    discriminate.
  - destruct (IH H) as [l [Hl Hr]]. exists l. split; [now right|exact Hr].
Qed.

(** [open] leaves the world as it is. *)
Lemma open_world (filepath : path) (w : world) : snd (open_ filepath w) = w.
Proof.
  unfold open_.
  destruct (resolve (w_fs w) filepath) as [[name f|name sub|name sub|name sub]|];
    [destruct (f_open f)|..]; try reflexivity.
  destruct (fsencode_error filepath); [reflexivity|].
  now destruct (through_file (w_fs w) filepath).
Qed.

(** What [open] does depends on the file system only. *)
Lemma open_fs (filepath : path) (w w' : world) :
  w_fs w' = w_fs w -> fst (open_ filepath w') = fst (open_ filepath w).
Proof.
  intros H. unfold open_. rewrite H.
  destruct (resolve (w_fs w) filepath) as [[name f|name sub|name sub|name sub]|];
    [destruct (f_open f)|..]; try reflexivity.
  destruct (fsencode_error filepath); [reflexivity|].
  now destruct (through_file (w_fs w) filepath).
Qed.

(** The [try] block never raises: it hands over the records parsed so far
    and the exception that ended it, if one did. *)
Lemma read_file_run (filepath : path) (w : world) :
  read_file filepath [] w =
    (Return match fst (open_ filepath w) with
            | Raise e => ([], Some e)
            | Return f => (parse_lines (fst (read_lines f)) [],
                           snd (read_lines f))
            end, w).
Proof.
  unfold read_file. pose proof (open_world filepath w) as Hw.
  destruct (open_ filepath w) as [[f|e] w']; simpl in Hw; subst w'.
  - cbn [fst]. now destruct (read_lines f).
  - reflexivity.
Qed.

(** A closed form of [process_log_file_with]: the records parsed before the
    [try] block was left are returned once the report of the exception is
    printed, and what that [print] raises leaves the function. *)
Lemma process_log_file_with_run (pr : message -> M unit) (filepath : path)
    (w : world) :
  process_log_file_with pr filepath w =
    match fst (read_file filepath [] w) with
    | Return (data, None) => (Return data, w)
    | Return (data, Some e) =>
        match pr (file_error_message filepath e) w with
        | (Return _, w') => (Return data, w')
        | (Raise e', w') => (Raise e', w')
        end
    | Raise e => (Raise e, w)
    end.
Proof.
  unfold process_log_file_with, bind at 1. rewrite read_file_run. cbn [fst].
  destruct (fst (open_ filepath w)) as [f|e].
  - destruct (snd (read_lines f)) as [e|]; [|reflexivity].
    unfold bind, ret, file_error_message.
    destruct (is_FileNotFoundError e); now destruct (pr _ w) as [[[]|e'] w'].
  - unfold bind, ret, file_error_message.
    destruct (is_FileNotFoundError e); now destruct (pr _ w) as [[[]|e'] w'].
Qed.

(** The report of a path that the console can encode is printed, and the
    report of one that it cannot encode raises. *)
Lemma print_on_report (console : pystr -> bool) (filepath : path) (e : exn)
    (w : world) :
  print_on console (file_error_message filepath e) w
  = if forallb console filepath
    then (Return tt, emit (EPrint (file_error_message filepath e)) w)
    else (Raise UnicodeEncodeError, w).
Proof.
  unfold print_on, file_error_message.
  destruct (is_FileNotFoundError e); cbn [message_path];
    now destruct (forallb console filepath).
Qed.

(** [process_log_file_with] on a console, by what the [try] block hands
    over. *)
Lemma process_log_file_on_run (console : pystr -> bool) (filepath : path)
    (w : world) (r : list pyval * option exn) :
  read_file filepath [] w = (Return r, w) ->
  process_log_file_with (print_on console) filepath w
  = match snd r with
    | None => (Return (fst r), w)
    | Some e =>
        if forallb console filepath
        then (Return (fst r), emit (EPrint (file_error_message filepath e)) w)
        else (Raise UnicodeEncodeError, w)
    end.
Proof.
  intros H. rewrite process_log_file_with_run, H. cbn [fst].
  destruct r as [data [e|]]; [|reflexivity]. cbn [fst snd].
  rewrite print_on_report. now destruct (forallb console filepath).
Qed.

(** A closed form of [process_log_file], where every report is printed. *)
Lemma process_log_file_run (filepath : path) (w : world) :
  process_log_file filepath w =
    match open_ filepath w with
    | (Raise e, _) => (Return [], emit (EPrint (file_error_message filepath e)) w)
    | (Return f, _) =>
        match snd (read_lines f) with
        | None => (Return (parse_lines (fst (read_lines f)) []), w)
        | Some e =>
            (Return (parse_lines (fst (read_lines f)) []),
             emit (EPrint (file_error_message filepath e)) w)
        end
    end.
Proof.
  unfold process_log_file. rewrite process_log_file_with_run, read_file_run.
  cbn [fst]. destruct (open_ filepath w) as [[f|e] w']; cbn [fst].
  - now destruct (snd (read_lines f)).
  - reflexivity.
Qed.

Lemma process_log_file_returns (filepath : path) (w : world) :
  exists w', process_log_file filepath w = (Return (file_records w filepath), w')
             /\ w_fs w' = w_fs w /\ w_net w' = w_net w
             /\ w_clock w' = w_clock w.
Proof.
  unfold file_records. rewrite process_log_file_run.
  destruct (open_ filepath w) as [[f|e] w1].
  - destruct (snd (read_lines f)); eexists; repeat split.
  - eexists; repeat split.
Qed.

Lemma file_records_fs (filepath : path) (w w' : world) :
  w_fs w' = w_fs w -> file_records w' filepath = file_records w filepath.
Proof.
  intros H. unfold file_records. rewrite !process_log_file_run.
  pose proof (open_fs filepath w w' H) as Ho.
  destruct (open_ filepath w') as [[f'|e'] w1'], (open_ filepath w) as [[f|e] w1];
    cbn [fst] in Ho; try discriminate; [|reflexivity].
  injection Ho as ->. now destruct (snd (read_lines f)).
Qed.

Lemma process_files_cons (log_file : path) (rest : list path) (total : nat)
    (acc : list pyval) (n : nat) :
  process_files (log_file :: rest) total acc n
  = (records <- process_log_file log_file ;;
     print (MsgProgress (n + 1) total) ;;
     process_files rest total (acc ++ records) (n + 1)).
Proof. reflexivity. Qed.

(** The processing loop returns in every world, with the records of every
    file of the list, in the order of the list. *)
Lemma process_files_run (files : list path) (total : nat) (acc : list pyval)
    (n : nat) (w : world) :
  exists w',
    process_files files total acc n w
      = (Return (acc ++ flat_map (file_records w) files), w')
    /\ w_fs w' = w_fs w /\ w_net w' = w_net w /\ w_clock w' = w_clock w.
Proof.
  revert acc n w. induction files as [|p rest IH]; intros acc n w.
  - exists w. cbn. unfold ret. now rewrite app_nil_r.
  - rewrite process_files_cons. cbn [flat_map].
    destruct (process_log_file_returns p w) as [w1 [E1 [F1 [N1 C1]]]].
    unfold bind at 1. rewrite E1. unfold bind at 1. unfold print at 1.
    destruct (IH (acc ++ file_records w p) (n + 1)
                 (emit (EPrint (MsgProgress (n + 1) total)) w1))
      as [w2 [E2 [F2 [N2 C2]]]].
    rewrite (flat_map_ext _ (file_records w)) in E2
      by (intros q; apply file_records_fs; exact F1).
    exists w2. rewrite E2. simpl in *. rewrite <- app_assoc.
    repeat split; congruence.
Qed.

(** C4, which the code breaks.  [process_log_file] takes every exception of
    its [try] block, but the report it then prints names the path and stands
    outside the block.  On a console that cannot encode the path that print
    raises [UnicodeEncodeError] out of the call, whatever ended the block: so
    it is, on a UTF-8 console, for a file whose name holds an undecodable
    byte, be it missing or closed to the user, and the processing loop, which
    calls [process_log_file] in no [try], ends there without reading
    [app.log], the file that follows.  With a path the console can encode no
    exception leaves the call, and a path that leads to nothing gives the
    file-not-found report and the empty list. *)
Theorem process_log_file_report_raises :
  (forall console filepath w data e,
     read_file filepath [] w = (Return (data, Some e), w) ->
     forallb console filepath = false ->
     process_log_file_with (print_on console) filepath w
     = (Raise UnicodeEncodeError, w))
  /\ resolve (w_fs failing_log_world) [undecodable_name] = None
  /\ process_log_file_with (print_on utf8_console) [undecodable_name]
       failing_log_world
     = (Raise UnicodeEncodeError, failing_log_world)
  /\ process_log_file_with (print_on utf8_console) [undecodable_name]
       unreadable_world
     = (Raise UnicodeEncodeError, unreadable_world)
  /\ process_files_with (print_on utf8_console)
       [[undecodable_name]; [lit "app.log"]] 2 [] 0 unreadable_world
     = (Raise UnicodeEncodeError, unreadable_world)
  /\ (forall console filepath w e,
        forallb console filepath = true ->
        fst (process_log_file_with (print_on console) filepath w) <> Raise e)
  /\ (forall console filepath w,
        forallb console filepath = true ->
        resolve (w_fs w) filepath = None ->
        fsencode_error filepath = None ->
        through_file (w_fs w) filepath = false ->
        process_log_file_with (print_on console) filepath w
        = (Return [], emit (EPrint (MsgFileNotFound filepath)) w)).
Proof.
  split; [|split; [|split; [|split; [|split; [|split]]]]].
  - intros console filepath w data e H Hc.
    rewrite (process_log_file_on_run _ _ _ _ H). cbn [fst snd]. now rewrite Hc.
  - reflexivity.
  - reflexivity.
  - reflexivity.
  - reflexivity.
  - intros console filepath w e Hc.
    rewrite (process_log_file_on_run console filepath w _
               (read_file_run filepath w)).
    destruct (fst (open_ filepath w)) as [f|e1]; cbn [fst snd].
    + destruct (snd (read_lines f)); [rewrite Hc|]; discriminate.
    + rewrite Hc. discriminate.
  - intros console filepath w Hc Hres Henc Hthrough.
    rewrite (process_log_file_on_run console filepath w _
               (read_file_run filepath w)).
    unfold open_. rewrite Hres, Henc, Hthrough. cbn [fst snd]. now rewrite Hc.
Qed.

(** C9, which the same print breaks.  When a read fails after the file was
    opened, the handler holds the records of the lines read before the
    failure, which begin the records of the whole file, and a failure to open
    leaves it the empty list; [process_log_file] returns that list once the
    report is printed.  On a console that cannot encode the path the report
    raises instead and the records are lost: so it is for the file whose name
    holds an undecodable byte and whose third read fails, while [app.log]
    with the same content returns its two records. *)
Theorem process_log_file_read_error :
  (forall console w filepath name f k e,
     resolve (w_fs w) filepath = Some (File name f) ->
     f_open f = None ->
     f_fail f = Some (k, e) ->
     k <= List.length (f_lines f) ->
     read_file filepath [] w
     = (Return (parse_lines (firstn k (f_lines f)) [], Some e), w)
     /\ (exists rest,
           parse_lines (f_lines f) []
           = parse_lines (firstn k (f_lines f)) [] ++ rest)
     /\ process_log_file_with (print_on console) filepath w
        = if forallb console filepath
          then (Return (parse_lines (firstn k (f_lines f)) []),
                emit (EPrint (file_error_message filepath e)) w)
          else (Raise UnicodeEncodeError, w))
  /\ (forall console w filepath e,
        fst (open_ filepath w) = Raise e ->
        process_log_file_with (print_on console) filepath w
        = if forallb console filepath
          then (Return [], emit (EPrint (file_error_message filepath e)) w)
          else (Raise UnicodeEncodeError, w))
  /\ process_log_file_with (print_on utf8_console) [lit "app.log"]
       failing_log_world
     = (Return [Record_ (lit "one"); Record_ (lit "two")],
        emit (EPrint (MsgReadError [lit "app.log"] OSError))
             failing_log_world)
  /\ process_log_file_with (print_on utf8_console) [undecodable_name]
       undecodable_world
     = (Raise UnicodeEncodeError, undecodable_world).
Proof.
  split; [|split; [|split]].
  - intros console w filepath name f k e Hres Hopen Hfail Hk.
    assert (Hr : read_file filepath [] w
                 = (Return (parse_lines (firstn k (f_lines f)) [], Some e), w)).
    { rewrite read_file_run. unfold open_. rewrite Hres. cbv iota beta.
      rewrite Hopen. cbn [fst]. unfold read_lines. rewrite Hfail.
      apply Nat.leb_le in Hk. now rewrite Hk. }
    split; [exact Hr|]. split; [apply parse_lines_firstn|].
    apply (process_log_file_on_run console _ _ _ Hr).
  - intros console w filepath e H.
    rewrite (process_log_file_on_run console filepath w _
               (read_file_run filepath w)).
    now rewrite H.
  - reflexivity.
  - reflexivity.
Qed.

(** ** Serialization *)

Lemma dumps_PyList (items : list pyval) :
  Json.dumps (PyList items) =
    match dumps_elems items with
    | Raise e => Raise e
    | Return parts =>
        Return (lit "[" ++ Json.join (lit ", ") parts ++ lit "]")
    end.
Proof. reflexivity. Qed.

Lemma dumps_PyDict (items : list (pyval * pyval)) :
  Json.dumps (PyDict items) =
    match dumps_members items with
    | Raise e => Raise e
    | Return parts =>
        Return (lit "{" ++ Json.join (lit ", ") parts ++ lit "}")
    end.
Proof. reflexivity. Qed.

Lemma dumps_Record (s : pystr) :
  Json.dumps (Record_ s)
  = Return (lit "{" ++ (Json.encode_basestring_ascii (lit "raw_content")
                         ++ lit ": " ++ Json.encode_basestring_ascii s)
                    ++ lit "}").
Proof. reflexivity. Qed.

Lemma is_ascii_app (a b : pystr) : is_ascii (a ++ b) = is_ascii a && is_ascii b.
Proof. apply forallb_app. Qed.

Lemma is_ascii_cons (c : char) (s : pystr) :
  is_ascii (c :: s) = (c <? 128)%N && is_ascii s.
Proof. reflexivity. Qed.

Lemma is_ascii_flat_map {A} (f : A -> pystr) (l : list A) :
  (forall x, In x l -> is_ascii (f x) = true) -> is_ascii (flat_map f l) = true.
Proof.
  induction l as [|x r IH]; simpl; intros H; [reflexivity|].
  rewrite is_ascii_app, H, IH; auto.
Qed.

Lemma hexdigit_ascii (n : N) : (Json.hexdigit n <? 128)%N = true.
Proof.
  unfold Json.hexdigit.
  assert (H : forall k l, forallb (fun c => (c <? 128)%N) l = true ->
                          (nth k l 0%N <? 128)%N = true).
  { intros k l. revert k. induction l as [|c t IH]; intros [|k]; simpl;
      try reflexivity; intros Hl; apply andb_prop in Hl as [Hc Ht]; auto. }
  apply H. reflexivity.
Qed.

Lemma escape_u_ascii (n : N) : is_ascii (Json.escape_u n) = true.
Proof.
  unfold Json.escape_u. rewrite is_ascii_app. simpl.
  now rewrite !hexdigit_ascii.
Qed.

Lemma escape_char_ascii (c : char) : is_ascii (Json.escape_char c) = true.
Proof.
  unfold Json.escape_char.
  repeat match goal with
         | |- context [if (?a =? ?b)%N then _ else _] =>
             destruct (a =? b)%N; [reflexivity|]
         end.
  destruct ((32 <=? c) && (c <=? 126))%N eqn:E.
  - apply andb_prop in E as [_ E]. apply N.leb_le in E.
    simpl. rewrite andb_true_r. apply N.ltb_lt. lia.
  - destruct (c <? 65536)%N; cbv zeta;
      rewrite ?is_ascii_app, !escape_u_ascii; reflexivity.
Qed.

Lemma encode_basestring_ascii_ascii (s : pystr) :
  is_ascii (Json.encode_basestring_ascii s) = true.
Proof.
  unfold Json.encode_basestring_ascii.
  change (34%N :: flat_map Json.escape_char s ++ [34%N])
    with ([34%N] ++ flat_map Json.escape_char s ++ [34%N]).
  rewrite !is_ascii_app, is_ascii_flat_map; [reflexivity|].
  intros c _. apply escape_char_ascii.
Qed.

Lemma int_repr_ascii (z : Z) : is_ascii (Json.int_repr z) = true.
Proof.
  assert (H : forall u, is_ascii (Json.uint_digits u) = true)
    by (induction u; simpl; auto).
  unfold Json.int_repr. destruct (Z.to_int z); simpl; auto.
Qed.

Lemma join_ascii (sep : pystr) (parts : list pystr) :
  is_ascii sep = true -> Forall (fun p => is_ascii p = true) parts ->
  is_ascii (Json.join sep parts) = true.
Proof.
  intros Hsep H. induction H as [|p rest Hp Hrest IH]; [reflexivity|].
  simpl. destruct rest as [|q rest']; [exact Hp|].
  rewrite !is_ascii_app, Hp, Hsep. exact IH.
Qed.

Lemma key_text_raises (k : pyval) (e : exn) :
  Json.key_text k = Raise e -> e = TypeError.
Proof. destruct k as [| [|] | | | | |]; simpl; congruence. Qed.

(** [Json.dumps] raises nothing but [TypeError], and what it returns is
    ASCII. *)
Lemma dumps_sound (v : pyval) :
  (forall e, Json.dumps v = Raise e -> e = TypeError)
  /\ (forall s, Json.dumps v = Return s -> is_ascii s = true).
Proof.
  induction v as [|b|z|s|items IH|items IH|] using pyval_nested_ind.
  - split; simpl; [discriminate|]. intros s H. now inversion H.
  - split; destruct b; simpl; try discriminate; intros s H; now inversion H.
  - split; simpl; [discriminate|]. intros s H. inversion H.
    apply int_repr_ascii.
  - split; simpl; [discriminate|]. intros t H. inversion H.
    apply encode_basestring_ascii_ascii.
  - assert (Hel : (forall e, dumps_elems items = Raise e -> e = TypeError)
                  /\ (forall parts, dumps_elems items = Return parts ->
                        Forall (fun p => is_ascii p = true) parts)).
    { induction IH as [|x r [Hx1 Hx2] _ [IH1 IH2]]; simpl.
      - split; [discriminate|]. intros parts H. inversion H. constructor.
      - destruct (Json.dumps x) as [sx|ex]; [|split; [|discriminate]].
        + destruct (dumps_elems r) as [sr|er]; split; try discriminate.
          * intros parts H. inversion H. constructor; auto.
          * intros e H. inversion H. subst. now apply IH1.
        + intros e H. inversion H. subst. now apply Hx1. }
    destruct Hel as [H1 H2]. rewrite dumps_PyList.
    destruct (dumps_elems items) as [parts|e0]; split; try discriminate.
    + intros s H. injection H as <-.
      rewrite is_ascii_cons, is_ascii_app, join_ascii; auto.
    + intros e H. inversion H. subst. now apply H1.
  - assert (Hel : (forall e, dumps_members items = Raise e -> e = TypeError)
                  /\ (forall parts, dumps_members items = Return parts ->
                        Forall (fun p => is_ascii p = true) parts)).
    { induction IH as [|[k x] r [Hx1 Hx2] _ [IH1 IH2]]; simpl in *.
      - split; [discriminate|]. intros parts H. inversion H. constructor.
      - destruct (Json.key_text k) as [sk|ek] eqn:Ek.
        + destruct (Json.dumps x) as [sx|ex]; [|split; [|discriminate]].
          * destruct (dumps_members r) as [sr|er]; split; try discriminate.
            -- intros parts H. inversion H. constructor; auto.
               change (is_ascii (Json.encode_basestring_ascii sk
                                 ++ lit ": " ++ sx) = true).
               rewrite !is_ascii_app, encode_basestring_ascii_ascii.
               simpl. now apply Hx2.
            -- intros e H. inversion H. subst. now apply IH1.
          * intros e H. inversion H. subst. now apply Hx1.
        + split; [|discriminate]. intros e H. inversion H. subst.
          exact (key_text_raises _ _ Ek). }
    destruct Hel as [H1 H2]. rewrite dumps_PyDict.
    destruct (dumps_members items) as [parts|e0]; split; try discriminate.
    + intros s H. injection H as <-.
      rewrite is_ascii_cons, is_ascii_app, join_ascii; auto.
    + intros e H. inversion H. subst. now apply H1.
  - split; simpl; [|discriminate]. intros e H. now inversion H.
Qed.

(** On ASCII text the UTF-8 encoding is the text itself, byte for
    character. *)
Lemma utf8_encode_ascii (s : pystr) :
  is_ascii s = true -> Utf8.encode s = Return s.
Proof.
  induction s as [|c t IH]; simpl; [reflexivity|].
  intros H. apply andb_prop in H as [Hc Ht].
  unfold Utf8.encode_char.
  replace (c <? 128)%N with true. now rewrite (IH Ht).
Qed.

(** ** Worlds *)

Lemma world_eq (a b : world) :
  w_fs a = w_fs b -> w_net a = w_net b -> w_clock a = w_clock b ->
  w_trace a = w_trace b -> a = b.
Proof. destruct a, b; simpl; congruence. Qed.

Lemma step_world_step (e1 e2 : list event) (n1 n2 : nat) (w : world) :
  step_world e2 n2 (step_world e1 n1 w) = step_world (e1 ++ e2) (n1 + n2) w.
Proof. apply world_eq; simpl; auto using app_assoc. lia. Qed.

Lemma step_world_nil (w : world) : step_world [] 0 w = w.
Proof. apply world_eq; simpl; auto using app_nil_r. Qed.

Lemma emit_step (ev : event) (w : world) : emit ev w = step_world [ev] 0 w.
Proof. reflexivity. Qed.

Lemma tick_emit_step (ev : event) (w : world) :
  tick (emit ev w) = step_world [ev] 1 w.
Proof. reflexivity. Qed.

(** ** Batches *)

Lemma firstn_plus {A} (a b : nat) (l : list A) :
  firstn (a + b) l = firstn a l ++ firstn b (skipn a l).
Proof.
  revert l. induction a as [|a IH]; intros [|x l]; simpl;
    try reflexivity.
  - now rewrite firstn_nil.
  - now rewrite IH.
Qed.

Lemma range_step_0 (n : nat) :
  range_step 0 n batch_size
  = map (fun k => k * batch_size) (seq 0 ((n + 99) / 100)).
Proof. unfold range_step, batch_size. simpl. now rewrite Nat.sub_0_r. Qed.

Lemma slices_firstn {A} (l : list A) (m : nat) :
  List.concat (map (fun i => slice l i (i + batch_size))
              (map (fun k => k * batch_size) (seq 0 m)))
  = firstn (m * batch_size) l.
Proof.
  induction m as [|m IH]; [reflexivity|].
  rewrite seq_S, !map_app, concat_app, IH.
  cbn [map List.concat Nat.add]. rewrite app_nil_r. unfold slice.
  replace (m * batch_size + batch_size - m * batch_size) with batch_size by lia.
  replace (S m * batch_size) with (m * batch_size + batch_size) by lia.
  now rewrite firstn_plus.
Qed.

(** The batches, put end to end, are the list. *)
Lemma batches_concat (data_list : list pyval) :
  List.concat (batches data_list) = data_list.
Proof.
  unfold batches. rewrite range_step_0, slices_firstn.
  apply firstn_all2. unfold batch_size.
  pose proof (Nat.div_mod_eq (List.length data_list + 99) 100).
  pose proof (Nat.mod_upper_bound (List.length data_list + 99) 100).
  lia.
Qed.

Lemma batches_length (data_list : list pyval) :
  List.length (batches data_list) = (List.length data_list + 99) / 100.
Proof.
  unfold batches. now rewrite range_step_0, !length_map, length_seq.
Qed.

(** Every batch but the last has [batch_size] records; the last has what is
    left, at least one. *)
Lemma batches_sizes (data_list : list pyval) (k : nat) :
  k < List.length (batches data_list) ->
  List.length (nth k (batches data_list) [])
  = Nat.min batch_size (List.length data_list - k * batch_size)
  /\ k * batch_size < List.length data_list.
Proof.
  rewrite batches_length. intros Hk. unfold batches.
  rewrite range_step_0, map_map.
  rewrite (nth_indep _ [] (slice data_list (0 * batch_size)
                                 (0 * batch_size + batch_size)))
    by now rewrite length_map, length_seq.
  rewrite (map_nth (fun k => slice data_list (k * batch_size)
                                   (k * batch_size + batch_size))).
  rewrite seq_nth by exact Hk. rewrite Nat.add_0_l.
  unfold slice. rewrite length_firstn, length_skipn.
  unfold batch_size in *.
  pose proof (Nat.div_mod_eq (List.length data_list + 99) 100).
  pose proof (Nat.mod_upper_bound (List.length data_list + 99) 100).
  split; lia.
Qed.

(** ** send_to_logstash *)

Lemma wire_line_serializable (data : pyval) :
  serializable data ->
  exists json_string,
    Json.dumps data = Return json_string
    /\ wire_line data = json_string ++ newline
    /\ is_ascii (wire_line data) = true.
Proof.
  intros [s Hs]. exists s. unfold wire_line. rewrite Hs.
  repeat split. rewrite is_ascii_app.
  now rewrite (proj2 (dumps_sound data) s Hs).
Qed.

Lemma wire_line_ascii (data : pyval) : is_ascii (wire_line data) = true.
Proof.
  unfold wire_line. destruct (Json.dumps data) as [s|e] eqn:E; [|reflexivity].
  rewrite is_ascii_app. now rewrite (proj2 (dumps_sound data) s E).
Qed.

(** The inner loop never raises: it returns the lines of the records that
    serialize, after reporting those that do not. *)
Lemma serialize_batch_run (batch : list pyval) (acc : pystr) (w : world) :
  serialize_batch batch acc w
  = (Return (acc ++ flat_map wire_line batch),
     step_world (serialize_errors batch) 0 w).
Proof.
  revert acc w. induction batch as [|data rest IH]; intros acc w.
  - simpl. unfold ret. now rewrite app_nil_r, step_world_nil.
  - cbn [serialize_batch flat_map serialize_errors].
    unfold bind at 1, try_except, bind at 1, lift, wire_line at 1.
    destruct (Json.dumps data) as [s|e] eqn:E.
    + unfold ret at 1. rewrite IH. f_equal.
      * now rewrite <- !app_assoc.
    + rewrite (proj1 (dumps_sound data) e E). cbn [is_TypeError_or_OverflowError].
      unfold bind at 1, print, ret at 1. rewrite IH, emit_step, step_world_step.
      f_equal.
Qed.

Lemma In_slice {A} (l : list A) (i j : nat) (x : A) :
  In x (slice l i j) -> In x l.
Proof.
  unfold slice. intros H.
  assert (H1 : forall n (m : list A), In x (firstn n m) -> In x m).
  { induction n as [|n IH]; intros [|y m]; simpl; try tauto.
    intros [->|Hm]; auto. }
  assert (H2 : forall n (m : list A), In x (skipn n m) -> In x m).
  { induction n as [|n IH]; intros [|y m]; simpl; try tauto.
    intros Hm. right. now apply IH. }
  eauto.
Qed.

Lemma Forall_slice {A} (P : A -> Prop) (l : list A) (i j : nat) :
  Forall P l -> Forall P (slice l i j).
Proof.
  intros H. rewrite Forall_forall in *. intros x Hx.
  apply H. eapply In_slice. exact Hx.
Qed.

Lemma serialize_errors_nil (batch : list pyval) :
  Forall serializable batch -> serialize_errors batch = [].
Proof.
  induction 1 as [|d rest [s Hs] _ IH]; [reflexivity|].
  unfold serialize_errors in *. simpl. now rewrite Hs, IH.
Qed.

Lemma wire_lines_nonempty (batch : list pyval) :
  Forall serializable batch -> batch <> [] ->
  nonempty (flat_map wire_line batch) = true.
Proof.
  intros H Hne. destruct batch as [|d rest]; [congruence|].
  apply Forall_inv in H. destruct (wire_line_serializable d H) as [s [_ [E _]]].
  simpl. rewrite E. destruct s; reflexivity.
Qed.

Lemma slice_nonempty {A} (l : list A) (i : nat) :
  i < List.length l -> slice l i (i + batch_size) <> [].
Proof.
  intros Hi H. apply (f_equal (@List.length A)) in H.
  unfold slice in H. rewrite length_firstn, length_skipn in H.
  unfold batch_size in H. simpl in H. lia.
Qed.

(** The batch loop on records that all serialize, against a network that
    accepts: one write per index, each the lines of its batch. *)
Lemma send_batches_accepted (data_list : list pyval) (indices : list nat)
    (sent_count : nat) (w : world) :
  Forall serializable data_list ->
  Forall (fun i => i < List.length data_list) indices ->
  accepting w ->
  let bs := map (fun i => slice data_list i (i + batch_size)) indices in
  send_batches data_list indices sent_count w
  = (Return (Finished (sent_count + List.length (List.concat bs))),
     step_world (map (fun b => ESendall (flat_map wire_line b) None) bs)
                (List.length indices) w).
Proof.
  intros Hser. revert sent_count w.
  induction indices as [|i rest IH]; intros sc w Hidx Hacc; cbv zeta.
  - simpl. unfold ret. now rewrite Nat.add_0_r, step_world_nil.
  - apply Forall_cons_iff in Hidx as [Hi Hrest].
    cbn [send_batches map List.concat].
    set (batch := slice data_list i (i + batch_size)).
    assert (Hb : Forall serializable batch) by now apply Forall_slice.
    unfold bind at 1. rewrite serialize_batch_run.
    rewrite (serialize_errors_nil _ Hb), step_world_nil. cbn [app].
    rewrite (wire_lines_nonempty batch Hb (slice_nonempty _ _ Hi)).
    cbn [negb]. unfold bind at 1, try_except, bind at 1, lift.
    rewrite utf8_encode_ascii
      by (apply is_ascii_flat_map; intros; apply wire_line_ascii).
    unfold bind at 1, sendall, net_op. rewrite (Hacc _ (le_n _)).
    unfold ret at 1. rewrite tick_emit_step.
    rewrite IH; [|exact Hrest|intros k Hk; apply Hacc; simpl in Hk; lia].
    rewrite step_world_step, length_app. f_equal.
    f_equal. f_equal. lia.
Qed.

Lemma range_step_bound (n i : nat) :
  In i (range_step 0 n batch_size) -> i < n.
Proof.
  rewrite range_step_0. intros H. apply in_map_iff in H as [k [<- Hk]].
  apply in_seq in Hk. unfold batch_size.
  pose proof (Nat.div_mod_eq (n + 99) 100).
  pose proof (Nat.mod_upper_bound (n + 99) 100).
  lia.
Qed.

Lemma writes_app (a b : list event) : writes (a ++ b) = writes a ++ writes b.
Proof. apply flat_map_app. Qed.

Lemma writes_sendall (bufs : list Utf8.bytes) :
  writes (map (fun b => ESendall b None) bufs) = bufs.
Proof. induction bufs as [|b r IH]; simpl; [reflexivity|]. now f_equal. Qed.

Lemma connects_app (a b : list event) :
  connects (a ++ b) = connects a + connects b.
Proof. unfold connects. now rewrite filter_app, length_app. Qed.

Lemma concat_wire_lines (bs : list (list pyval)) :
  List.concat (map (flat_map wire_line) bs) = flat_map wire_line (List.concat bs).
Proof.
  induction bs as [|b r IH]; simpl; [reflexivity|].
  now rewrite flat_map_app, IH.
Qed.

(** [send_to_logstash] on a list that is not empty, one step at a time: the
    connection, the batch loop, the ways out. *)
Lemma send_to_logstash_run (h : host) (p : port) (data_list : list pyval)
    (w : world) :
  data_list <> [] ->
  send_to_logstash h p data_list w
  = match w_net w (w_clock w) with
    | Some e =>
        (Return false,
         step_world [EConnect h p 10%N (Some e);
                     EPrint (if is_socket_error e then MsgConnectFailed h p e
                             else MsgUnexpected e)] 1 w)
    | None =>
        match send_batches data_list
                (range_step 0 (List.length data_list) batch_size) 0
                (step_world [EConnect h p 10%N None; EPrint (MsgConnected h p)]
                            1 w)
        with
        | (Return (Finished sent_count), w2) =>
            (Return true, step_world [EPrint (MsgSent sent_count); EClose] 0 w2)
        | (Return (Returned b), w2) => (Return b, step_world [EClose] 0 w2)
        | (Raise e, w2) =>
            (Return false,
             step_world [EClose;
                         EPrint (if is_socket_error e
                                 then MsgConnectFailed h p e
                                 else MsgUnexpected e)] 0 w2)
        end
    end.
Proof.
  intros Hne. unfold send_to_logstash.
  replace (nonempty data_list) with true by (now destruct data_list).
  cbn [negb].
  unfold try_except, with_connection, create_connection, net_op.
  unfold bind at 1. cbv beta zeta.
  destruct (w_net w (w_clock w)) as [e|].
  - rewrite tick_emit_step.
    destruct (is_socket_error e); unfold bind, print, ret;
      rewrite emit_step, step_world_step; reflexivity.
  - rewrite tick_emit_step. unfold bind at 1, print at 1.
    rewrite emit_step, step_world_step. cbn [app Nat.add].
    unfold bind at 1.
    destruct (send_batches _ _ _ _) as [[[sc|b]|e] w2].
    + unfold bind, print, ret. rewrite !emit_step, !step_world_step.
      reflexivity.
    + unfold ret. reflexivity.
    + destruct (is_socket_error e); unfold bind, print, ret;
        rewrite !emit_step, !step_world_step; reflexivity.
Qed.

(** C5: for the empty list [send_to_logstash] returns [True] at once: it
    prints its notice and does nothing on the network, no connection and no
    write. *)
Theorem send_to_logstash_empty (h : host) (p : port) (w : world) :
  exists evs,
    send_to_logstash h p [] w = (Return true, step_world evs 0 w)
    /\ evs = [EPrint MsgNoData]
    /\ connects evs = 0 /\ writes evs = [] /\ net_results evs = [].
Proof. exists [EPrint MsgNoData]. repeat split. Qed.

(** C2: for more than 100 records that all serialize, against an endpoint
    that accepts, one call connects once, writes once per batch, that is
    ceil(N / 100) times, the batches being the consecutive runs of 100
    records (the last one shorter) in order, and the written buffers put end
    to end are the records' JSON lines in the original order. *)
Theorem send_to_logstash_batched (h : host) (p : port)
    (data_list : list pyval) (w : world) :
  100 < List.length data_list ->
  Forall serializable data_list ->
  accepting w ->
  exists evs,
    send_to_logstash h p data_list w
    = (Return true, step_world evs (S (List.length (batches data_list))) w)
    /\ evs = [EConnect h p 10%N None; EPrint (MsgConnected h p)]
             ++ map (fun b => ESendall (flat_map wire_line b) None)
                    (batches data_list)
             ++ [EPrint (MsgSent (List.length data_list)); EClose]
    /\ writes evs = map (flat_map wire_line) (batches data_list)
    /\ List.length (writes evs) = (List.length data_list + 99) / 100
    /\ (List.length data_list <= 100 * List.length (writes evs)
        < List.length data_list + 100)
    /\ List.concat (batches data_list) = data_list
    /\ (forall k, k < List.length (batches data_list) ->
          List.length (nth k (batches data_list) [])
          = Nat.min 100 (List.length data_list - k * 100))
    /\ List.concat (writes evs) = flat_map wire_line data_list
    /\ Utf8.encode (flat_map wire_line data_list)
       = Return (List.concat (writes evs))
    /\ Forall (fun d => exists json_string,
                 Json.dumps d = Return json_string
                 /\ wire_line d = json_string ++ newline) data_list.
Proof.
  intros Hlen Hser Hacc.
  eexists. split; [|split; [reflexivity|]].
  - rewrite send_to_logstash_run
      by (intros ->; simpl in Hlen; lia).
    rewrite (Hacc _ (le_n _)).
    rewrite send_batches_accepted.
    + fold (batches data_list). rewrite batches_concat.
      rewrite !step_world_step. unfold batches at 3. rewrite length_map.
      f_equal. apply world_eq; simpl; try reflexivity; try lia.
    + exact Hser.
    + apply Forall_forall. intros i. apply range_step_bound.
    + intros i Hi. apply Hacc. simpl in Hi. lia.
  - assert (Hw : writes ([EConnect h p 10%N None; EPrint (MsgConnected h p)]
                         ++ map (fun b => ESendall (flat_map wire_line b) None)
                                (batches data_list)
                         ++ [EPrint (MsgSent (List.length data_list)); EClose])
                 = map (flat_map wire_line) (batches data_list)).
    { rewrite !writes_app. cbn [writes flat_map app].
      rewrite app_nil_r.
      rewrite <- (map_map (flat_map wire_line) (fun b => ESendall b None)).
      apply writes_sendall. }
    rewrite Hw, length_map, batches_length, concat_wire_lines, batches_concat.
    pose proof (Nat.div_mod_eq (List.length data_list + 99) 100).
    pose proof (Nat.mod_upper_bound (List.length data_list + 99) 100).
    repeat split; try lia.
    + intros k Hk. rewrite <- batches_length in Hk.
      exact (proj1 (batches_sizes data_list k Hk)).
    + apply utf8_encode_ascii, is_ascii_flat_map.
      intros; apply wire_line_ascii.
    + eapply Forall_impl; [|exact Hser]. intros d Hd.
      destruct (wire_line_serializable d Hd) as [s [H1 [H2 _]]]. eauto.
Qed.

Example send_to_logstash_batched_witness :
  exists evs,
    send_to_logstash LOGSTASH_HOST LOGSTASH_PORT sample_records
                     (initial_world [] net_accepting)
    = (Return true, step_world evs 3 (initial_world [] net_accepting))
    /\ List.length (writes evs) = 2.
Proof.
  assert (H1 : 100 < List.length sample_records)
    by (apply Nat.ltb_lt; reflexivity).
  assert (H2 : Forall serializable sample_records).
  { apply Forall_forall. intros r Hr. unfold sample_records in Hr.
    apply in_map_iff in Hr as [k [<- _]]. eexists. apply dumps_Record. }
  assert (H3 : accepting (initial_world [] net_accepting))
    by (intros i _; reflexivity).
  destruct (send_to_logstash_batched LOGSTASH_HOST LOGSTASH_PORT
              sample_records (initial_world [] net_accepting) H1 H2 H3)
    as [evs [E [_ [_ [L _]]]]].
  exists evs. split; [exact E|exact L].
Defined.

(** *** Any network, any records *)

Lemma net_results_app (a b : list event) :
  net_results (a ++ b) = net_results a ++ net_results b.
Proof. apply flat_map_app. Qed.

Lemma traced_quiet (w : world) (evs : list event) :
  net_results evs = [] -> traced w (step_world evs 0 w) evs.
Proof. intros H. unfold traced. rewrite H. now split. Qed.

Lemma traced_op (w : world) (ev : event) (r : option exn) :
  net_results [ev] = [r] -> w_net w (w_clock w) = r ->
  traced w (step_world [ev] 1 w) [ev].
Proof.
  intros H E. unfold traced. rewrite H. split; [reflexivity|].
  unfold oracle_results. simpl. now rewrite E.
Qed.

Lemma traced_trans (w w1 w2 : world) (e1 e2 : list event) :
  traced w w1 e1 -> traced w1 w2 e2 -> traced w w2 (e1 ++ e2).
Proof.
  intros [-> H1] [-> H2]. unfold traced.
  rewrite net_results_app, length_app, step_world_step. split; [reflexivity|].
  unfold oracle_results in *. rewrite seq_app, map_app.
  rewrite H1 at 1. rewrite H2 at 1. simpl.
  now rewrite (Nat.add_comm (w_clock w)).
Qed.

Lemma all_ok_app (a b : list (option exn)) :
  all_ok (a ++ b) <-> all_ok a /\ all_ok b.
Proof. apply Forall_app. Qed.

Lemma fails_last_app (a b : list (option exn)) (e : exn) :
  all_ok a -> fails_last b e -> fails_last (a ++ b) e.
Proof.
  intros Ha [pre [-> Hpre]]. exists (a ++ pre).
  rewrite app_assoc. split; [reflexivity|]. now apply all_ok_app.
Qed.

Lemma serialize_errors_quiet (batch : list pyval) :
  net_results (serialize_errors batch) = []
  /\ connects (serialize_errors batch) = 0.
Proof.
  unfold serialize_errors.
  induction batch as [|d r [IH1 IH2]]; [now split|].
  cbn [flat_map]. rewrite net_results_app, connects_app, IH1, IH2.
  now destruct (Json.dumps d).
Qed.

Lemma serialize_errors_reports (data_list batch : list pyval) :
  incl batch data_list -> reports_within data_list (serialize_errors batch).
Proof.
  intros Hin d e H. unfold serialize_errors in H.
  apply in_flat_map in H as [x [Hx H]].
  destruct (Json.dumps x) as [s|e'] eqn:E; [destruct H|].
  destruct H as [H|[]]. injection H as H1 H2. subst. auto.
Qed.

Lemma reports_within_app (data_list : list pyval) (a b : list event) :
  reports_within data_list a -> reports_within data_list b ->
  reports_within data_list (a ++ b).
Proof.
  intros Ha Hb d e H. apply in_app_or in H as [H|H]; auto.
Qed.

(** What the batch loop does in any world: its network operations are the
    world's next ones; it finishes when all of them succeed, and the first
    that fails is its last, leaving the function with [False] on a socket
    error and raising otherwise. *)
Lemma send_batches_spec (data_list : list pyval) (indices : list nat)
    (sent_count : nat) (w : world) :
  exists r w' evs,
    send_batches data_list indices sent_count w = (r, w')
    /\ traced w w' evs
    /\ connects evs = 0
    /\ reports_within data_list evs
    /\ match r with
       | Return (Finished _) => all_ok (net_results evs)
       | Return (Returned b) =>
           b = false /\ exists e, fails_last (net_results evs) e
       | Raise e => fails_last (net_results evs) e
       end.
Proof.
  revert sent_count w. induction indices as [|i rest IH]; intros sc w.
  - exists (Return (Finished sc)), w, [].
    split; [reflexivity|]. split; [|split; [|split]].
    + split; [now rewrite step_world_nil|reflexivity].
    + reflexivity.
    + intros d e [].
    + constructor.
  - cbn [send_batches].
    set (batch := slice data_list i (i + batch_size)).
    unfold bind at 1. rewrite serialize_batch_run. cbn [app].
    set (w1 := step_world (serialize_errors batch) 0 w).
    destruct (serialize_errors_quiet batch) as [Hq Hc].
    assert (T1 : traced w w1 (serialize_errors batch))
      by now apply traced_quiet.
    assert (R1 : reports_within data_list (serialize_errors batch)).
    { apply serialize_errors_reports. intros x. apply In_slice. }
    destruct (nonempty (flat_map wire_line batch)); cbn [negb].
    + unfold bind at 1, try_except, bind at 1, lift.
      rewrite utf8_encode_ascii
        by (apply is_ascii_flat_map; intros; apply wire_line_ascii).
      unfold bind at 1, sendall, net_op. rewrite tick_emit_step.
      set (buf := flat_map wire_line batch).
      destruct (w_net w1 (w_clock w1)) as [e|] eqn:Enet.
      * assert (T2 : traced w1 (step_world [ESendall buf (Some e)] 1 w1)
                            [ESendall buf (Some e)]).
        { eapply traced_op; [reflexivity|exact Enet]. }
        destruct (is_socket_error e) eqn:Es.
        -- unfold bind at 1, print at 1, ret. rewrite emit_step.
           exists (Return (Returned false)), (step_world [EPrint (MsgSocketSendError e)] 0
                     (step_world [ESendall buf (Some e)] 1 w1)),
             (serialize_errors batch
              ++ [ESendall buf (Some e)] ++ [EPrint (MsgSocketSendError e)]).
           split; [reflexivity|]. split; [|split; [|split]].
           ++ eapply traced_trans; [exact T1|].
              eapply traced_trans; [exact T2|]. now apply traced_quiet.
           ++ now rewrite connects_app, Hc.
           ++ apply reports_within_app; [exact R1|].
              intros d e' [H|[H|[]]]; discriminate.
           ++ split; [reflexivity|]. exists e.
              rewrite net_results_app, Hq. exists []. split; [reflexivity|].
              constructor.
        -- exists (Raise e), (step_world [ESendall buf (Some e)] 1 w1),
             (serialize_errors batch ++ [ESendall buf (Some e)]).
           split; [reflexivity|]. split; [|split; [|split]].
           ++ eapply traced_trans; [exact T1|exact T2].
           ++ now rewrite connects_app, Hc.
           ++ apply reports_within_app; [exact R1|].
              intros d e' [H|[]]; discriminate.
           ++ rewrite net_results_app, Hq. exists []. split; [reflexivity|].
              constructor.
      * unfold ret at 1.
        set (w2 := step_world [ESendall buf None] 1 w1).
        assert (T2 : traced w1 w2 [ESendall buf None]).
        { eapply traced_op; [reflexivity|exact Enet]. }
        destruct (IH (sc + List.length batch) w2)
          as [r [w' [evs [E [T [C [R S]]]]]]].
        exists r, w', (serialize_errors batch ++ [ESendall buf None] ++ evs).
        split; [exact E|]. split; [|split; [|split]].
        -- eapply traced_trans; [exact T1|].
           eapply traced_trans; [exact T2|exact T].
        -- now rewrite !connects_app, Hc, C.
        -- apply reports_within_app; [exact R1|].
           apply reports_within_app; [|exact R].
           intros d e' [H|[]]; discriminate.
        -- rewrite !net_results_app, Hq. cbn [app net_results flat_map].
           assert (Hn : all_ok [@None exn]) by (repeat constructor).
           destruct r as [[sc'|b]|e].
           ++ now apply (all_ok_app [None]).
           ++ destruct S as [Hb [e He]]. split; [exact Hb|]. exists e.
              now apply (fails_last_app [None]).
           ++ now apply (fails_last_app [None]).
    + destruct (IH sc w1) as [r [w' [evs [E [T [C [R S]]]]]]].
      exists r, w', (serialize_errors batch ++ evs).
      split; [exact E|]. split; [|split; [|split]].
      * eapply traced_trans; [exact T1|exact T].
      * now rewrite connects_app, Hc, C.
      * now apply reports_within_app.
      * rewrite net_results_app, Hq. exact S.
Qed.

(** One call in any world, with any records: it returns, connecting at most
    once; it returns [True] when every network operation succeeded, and
    [False] when one failed, which then was its last. *)
Lemma send_to_logstash_spec (h : host) (p : port) (data_list : list pyval)
    (w : world) :
  exists b w' evs,
    send_to_logstash h p data_list w = (Return b, w')
    /\ traced w w' evs
    /\ connects evs <= 1
    /\ reports_within data_list evs
    /\ ((b = true /\ all_ok (net_results evs))
        \/ (b = false /\ exists e, fails_last (net_results evs) e)).
Proof.
  destruct data_list as [|d0 rest] eqn:Ed.
  { exists true, (step_world [EPrint MsgNoData] 0 w), [EPrint MsgNoData].
    split; [reflexivity|]. split; [now apply traced_quiet|].
    split; [unfold connects; simpl; lia|].
    split; [intros d e [H|[]]; discriminate|].
    left. split; [reflexivity|constructor]. }
  rewrite <- Ed. assert (Hne : data_list <> []) by (rewrite Ed; discriminate).
  clear Ed. rewrite (send_to_logstash_run h p data_list w Hne).
  destruct (w_net w (w_clock w)) as [e|] eqn:Enet.
  - eexists false, _,
      [EConnect h p 10%N (Some e);
       EPrint (if is_socket_error e then MsgConnectFailed h p e
               else MsgUnexpected e)].
    split; [reflexivity|].
    split; [|split; [|split]].
    + unfold traced. cbn [net_results flat_map app List.length].
      split; [reflexivity|]. unfold oracle_results. simpl. now rewrite Enet.
    + unfold connects. simpl. lia.
    + intros d e' [H|[H|[]]]; [discriminate|].
      destruct (is_socket_error e); discriminate.
    + right. split; [reflexivity|]. exists e, []. split; [reflexivity|].
      constructor.
  - set (w1 := step_world [EConnect h p 10%N None; EPrint (MsgConnected h p)]
                          1 w).
    assert (T1 : traced w w1 [EConnect h p 10%N None;
                              EPrint (MsgConnected h p)]).
    { unfold traced. cbn [net_results flat_map app List.length].
      split; [reflexivity|]. unfold oracle_results. simpl. now rewrite Enet. }
    destruct (send_batches_spec data_list
                (range_step 0 (List.length data_list) batch_size) 0 w1)
      as [r [w2 [evs [E [T [C [R S]]]]]]].
    rewrite E.
    assert (R0 : reports_within data_list
                   [EConnect h p 10%N None; EPrint (MsgConnected h p)])
      by (intros d e [H|[H|[]]]; discriminate).
    assert (Hok : all_ok [@None exn]) by (repeat constructor).
    destruct r as [[sc|b]|e].
    + exists true, (step_world [EPrint (MsgSent sc); EClose] 0 w2),
        ([EConnect h p 10%N None; EPrint (MsgConnected h p)]
         ++ evs ++ [EPrint (MsgSent sc); EClose]).
      split; [reflexivity|]. split; [|split; [|split]].
      * eapply traced_trans; [exact T1|].
        eapply traced_trans; [exact T|]. now apply traced_quiet.
      * rewrite !connects_app, C. unfold connects. simpl. lia.
      * apply reports_within_app; [exact R0|].
        apply reports_within_app; [exact R|].
        intros d e [H|[H|[]]]; discriminate.
      * left. split; [reflexivity|].
        rewrite !net_results_app. cbn [net_results flat_map app].
        rewrite app_nil_r. now apply (all_ok_app [None]).
    + destruct S as [-> [e He]].
      exists false, (step_world [EClose] 0 w2),
        ([EConnect h p 10%N None; EPrint (MsgConnected h p)]
         ++ evs ++ [EClose]).
      split; [reflexivity|]. split; [|split; [|split]].
      * eapply traced_trans; [exact T1|].
        eapply traced_trans; [exact T|]. now apply traced_quiet.
      * rewrite !connects_app, C. unfold connects. simpl. lia.
      * apply reports_within_app; [exact R0|].
        apply reports_within_app; [exact R|].
        intros d e' [H|[]]; discriminate.
      * right. split; [reflexivity|]. exists e.
        rewrite !net_results_app. cbn [net_results flat_map app].
        rewrite app_nil_r. now apply (fails_last_app [None]).
    + eexists false, _,
        ([EConnect h p 10%N None; EPrint (MsgConnected h p)]
         ++ evs ++ [EClose; EPrint (if is_socket_error e
                                    then MsgConnectFailed h p e
                                    else MsgUnexpected e)]).
      split; [reflexivity|]. split; [|split; [|split]].
      * eapply traced_trans; [exact T1|].
        eapply traced_trans; [exact T|]. now apply traced_quiet.
      * rewrite !connects_app, C. unfold connects. simpl. lia.
      * apply reports_within_app; [exact R0|].
        apply reports_within_app; [exact R|].
        intros d e' [H|[H|[]]]; [discriminate|].
        destruct (is_socket_error e); discriminate.
      * right. split; [reflexivity|]. exists e.
        rewrite !net_results_app. cbn [net_results flat_map app].
        rewrite app_nil_r. now apply (fails_last_app [None]).
Qed.



Lemma file_records_are_records (w : world) (filepath : path) (r : pyval) :
  In r (file_records w filepath) -> exists s, s <> [] /\ r = Record_ s.
Proof.
  unfold file_records. rewrite process_log_file_run.
  destruct (open_ filepath w) as [[f|e] w1]; [|intros []].
  assert (H : In r (parse_lines (fst (read_lines f)) []) ->
              exists s, s <> [] /\ r = Record_ s).
  { intros H. apply parse_lines_records in H as [line [_ [Hs Hr]]]. eauto. }
  now destruct (snd (read_lines f)).
Qed.

Lemma batches_nonempty (data_list batch : list pyval) :
  In batch (batches data_list) -> batch <> [] /\ incl batch data_list.
Proof.
  unfold batches. intros H. apply in_map_iff in H as [i [<- Hi]].
  split.
  - apply slice_nonempty. now apply range_step_bound.
  - intros x. apply In_slice.
Qed.

(** C10: every record [log_parser] makes serializes, so for the records the
    processing loop gathers no call of [send_to_logstash], in any world,
    reports a serialization error, and every batch gets the line of each of
    its records and is not skipped as empty. *)
Theorem pipeline_records_serialize (files : list path) (total : nat)
    (w0 : world) :
  (forall s, exists json_string,
     Json.dumps (Record_ s) = Return json_string
     /\ Utf8.encode (json_string ++ newline) = Return (json_string ++ newline))
  /\ (forall line, log_parser line = PyNone
                   \/ log_parser line = Record_ (strip line))
  /\ exists data_to_send w1,
       process_files files total [] 0 w0 = (Return data_to_send, w1)
       /\ Forall (fun r => exists s, r = Record_ s
                                     /\ Json.dumps r
                                        = Return (lit "{"
                                            ++ (Json.encode_basestring_ascii
                                                  (lit "raw_content")
                                                ++ lit ": "
                                                ++ Json.encode_basestring_ascii s)
                                            ++ lit "}"))
                 data_to_send
       /\ (forall h p w,
             exists b w' evs,
               send_to_logstash h p data_to_send w = (Return b, w')
               /\ traced w w' evs
               /\ forall d e, ~ In (EPrint (MsgSerializeError d e)) evs)
       /\ (forall batch w,
             In batch (batches data_to_send) ->
             serialize_batch batch [] w = (Return (flat_map wire_line batch), w)
             /\ nonempty (flat_map wire_line batch) = true
             /\ Forall (fun r => exists json_string,
                          Json.dumps r = Return json_string
                          /\ wire_line r = json_string ++ newline) batch).
Proof.
  split; [|split].
  { intros s. eexists. split; [apply dumps_Record|].
    apply utf8_encode_ascii. rewrite is_ascii_app.
    now rewrite (proj2 (dumps_sound _) _ (dumps_Record s)). }
  { intros line. unfold log_parser. cbv zeta.
    destruct (nonempty (strip line)); [now right|now left]. }
  destruct (process_files_run files total [] 0 w0) as [w1 [E _]].
  cbn [app] in E. eexists _, w1. split; [exact E|].
  set (data := flat_map (file_records w0) files).
  assert (Hrec : Forall (fun r => exists s, r = Record_ s) data).
  { apply Forall_forall. intros r Hr. apply in_flat_map in Hr as [f [_ Hr]].
    apply file_records_are_records in Hr as [s [_ ->]]. eauto. }
  assert (Hser : Forall serializable data).
  { eapply Forall_impl; [|exact Hrec]. intros r [s ->].
    eexists. apply dumps_Record. }
  split; [|split].
  - eapply Forall_impl; [|exact Hrec]. intros r [s ->]. exists s.
    split; [reflexivity|apply dumps_Record].
  - intros h p w.
    destruct (send_to_logstash_spec h p data w)
      as [b [w' [evs [E' [T [_ [R _]]]]]]].
    exists b, w', evs. split; [exact E'|]. split; [exact T|].
    intros d e Hin. destruct (R d e Hin) as [Hd He].
    rewrite Forall_forall in Hser. destruct (Hser d Hd) as [s Hs]. congruence.
  - intros batch w Hin.
    destruct (batches_nonempty data batch Hin) as [Hne Hincl].
    assert (Hb : Forall serializable batch).
    { rewrite Forall_forall in *. auto. }
    rewrite serialize_batch_run, (serialize_errors_nil batch Hb), step_world_nil.
    split; [reflexivity|]. split; [now apply wire_lines_nonempty|].
    eapply Forall_impl; [|exact Hb]. intros d Hd.
    destruct (wire_line_serializable d Hd) as [s [H1 [H2 _]]]. eauto.
Qed.

(** ** The send loop *)

Lemma send_loop_step (fuel : nat) (h : host) (p : port) (data : list pyval)
    (w : world) :
  send_loop (S fuel) h p data w
  = match send_to_logstash h p data w with
    | (Return true, w1) => (Return Exited, w1)
    | (Return false, w1) => send_loop fuel h p data (step_world retry_pause 0 w1)
    | (Raise e, w1) => (Raise e, w1)
    end.
Proof.
  cbn [send_loop]. unfold bind at 1.
  destruct (send_to_logstash h p data w) as [[[|]|e] w1]; cbn [negb];
    try reflexivity.
  unfold bind, print, sleep. now rewrite !emit_step, step_world_step.
Qed.

Lemma sleeps_app (a b : list event) : sleeps (a ++ b) = sleeps a ++ sleeps b.
Proof. apply flat_map_app. Qed.

(** C3: the send loop has no bound on its retries.  After any number of
    failed attempts, each followed by the notice and a pause of 5 seconds, it
    is calling [send_to_logstash] again with the same records, whatever was
    written before; it comes back only from an attempt that returned [True];
    and against a network that never accepts it is still retrying after any
    number of iterations, having connected and paused once per iteration. *)
Theorem send_loop_retries (h : host) (p : port) (data : list pyval) :
  (forall n w w',
     failed_attempts h p data n w w' ->
     forall fuel, send_loop (n + fuel) h p data w = send_loop fuel h p data w')
  /\ (forall fuel w w',
        send_loop fuel h p data w = (Return Exited, w') ->
        exists n w1,
          n < fuel /\ failed_attempts h p data n w w1
          /\ send_to_logstash h p data w1 = (Return true, w'))
  /\ (forall fuel w, exists st w', send_loop fuel h p data w = (Return st, w'))
  /\ (data <> [] ->
      forall fuel w, never_accepting w ->
        exists evs,
          send_loop fuel h p data w = (Return Retrying, step_world evs fuel w)
          /\ failed_attempts h p data fuel w (step_world evs fuel w)
          /\ connects evs = fuel
          /\ sleeps evs = repeat 5%N fuel
          /\ writes evs = [])
  /\ (exists w',
        send_loop 2 LOGSTASH_HOST LOGSTASH_PORT sample_records
                  second_write_fails_world = (Return Exited, w')
        /\ sleeps (w_trace w') = [5%N]
        /\ writes (w_trace w')
           = map (flat_map wire_line)
                 (batches sample_records ++ batches sample_records)).
Proof.
  split; [|split; [|split; [|split]]].
  - intros n w w' H. induction H as [w|n w w1 w' E _ IH]; intros fuel.
    + reflexivity.
    + cbn [Nat.add]. rewrite send_loop_step, E. apply IH.
  - induction fuel as [|fuel IH]; intros w w' H; [discriminate|].
    rewrite send_loop_step in H.
    destruct (send_to_logstash h p data w) as [[[|]|e] w1] eqn:E.
    + injection H as <-. exists 0, w.
      split; [lia|]. split; [constructor|exact E].
    + destruct (IH _ _ H) as [n [w2 [Hn [Hf Hs]]]].
      exists (S n), w2. split; [lia|]. split; [|exact Hs].
      econstructor; eauto.
    + discriminate.
  - induction fuel as [|fuel IH]; intros w.
    + now exists Retrying, w.
    + rewrite send_loop_step.
      destruct (send_to_logstash_spec h p data w) as [b [w1 [evs [E _]]]].
      rewrite E. destruct b; [now exists Exited, w1|apply IH].
  - intros Hne. induction fuel as [|fuel IH]; intros w Hnet.
    + exists []. rewrite step_world_nil. repeat split. constructor.
    + rewrite send_loop_step.
      pose proof (send_to_logstash_run h p data w Hne) as E.
      destruct (w_net w (w_clock w)) as [e|] eqn:En;
        [|exfalso; exact (Hnet _ En)].
      rewrite E.
      set (attempt := [EConnect h p 10%N (Some e);
                       EPrint (if is_socket_error e
                               then MsgConnectFailed h p e
                               else MsgUnexpected e)]) in *.
      destruct (IH (step_world retry_pause 0 (step_world attempt 1 w)))
        as [evs [E1 [F1 [C1 [S1 W1]]]]]; [exact Hnet|].
      assert (Hw : step_world evs fuel
                     (step_world retry_pause 0 (step_world attempt 1 w))
                   = step_world (attempt ++ retry_pause ++ evs) (S fuel) w).
      { apply world_eq; simpl; try reflexivity; [lia|].
        now rewrite <- !app_assoc. }
      rewrite Hw in *.
      exists (attempt ++ retry_pause ++ evs).
      split; [exact E1|]. split; [|split; [|split]].
      * econstructor; [exact E|exact F1].
      * rewrite !connects_app, C1. reflexivity.
      * rewrite !sleeps_app, S1. reflexivity.
      * rewrite !writes_app, W1. reflexivity.
  - eexists. split; [vm_compute; reflexivity|].
    split; vm_compute; reflexivity.
Qed.

(** ** The scenario of the two files *)

(** C7, as the code has it: the records come in the order in which the
    directory listing gives the files.  With [a.txt] listed first the unified
    sequence is foo, bar, baz, and [main] writes these three lines; with
    [b.txt] listed first it is baz, foo, bar.  Either way the blank line is
    skipped, the whitespace trimmed, and each file's lines keep their
    order. *)
Theorem scenario_records_follow_listing (ea eb : bool) :
  fst (gather [lit "logs"] (scenario_world [a_txt ea; b_txt eb]))
  = Return (Some scenario_expected)
  /\ fst (gather [lit "logs"] (scenario_world [b_txt eb; a_txt ea]))
     = Return (Some [Record_ (lit "baz"); Record_ (lit "foo");
                     Record_ (lit "bar")])
  /\ writes (w_trace (snd (main 1 [lit "logs"] LOGSTASH_HOST LOGSTASH_PORT
                             (scenario_world [a_txt ea; b_txt eb]))))
     = [flat_map wire_line scenario_expected].
Proof. destruct ea, eb; repeat split; vm_compute; reflexivity. Qed.

(** The claim as the specification words it, for every directory that holds
    exactly these two files, fails when the listing gives [b.txt] first. *)
Lemma scenario_listing_order_counterexample :
  ~ (forall entries,
       Permutation entries [a_txt true; b_txt true] ->
       fst (gather [lit "logs"] (scenario_world entries))
       = Return (Some scenario_expected)).
Proof.
  intros H.
  specialize (H [b_txt true; a_txt true] (perm_swap _ _ _)).
  vm_compute in H. discriminate.
Qed.

(** * Further properties *)

(** ** Reading a file *)

Lemma parse_lines_nonblank (lines : list pystr) :
  parse_lines lines [] = map Record_ (nonblank_trimmed lines).
Proof.
  unfold nonblank_trimmed.
  induction lines as [|line rest IH]; [reflexivity|].
  cbn [parse_lines filter]. rewrite parse_lines_acc, IH.
  unfold log_parser. cbv zeta.
  destruct (nonempty (strip line)) eqn:E; cbn [truthy]; [|reflexivity].
  unfold Record_ at 1. cbn [truthy nonempty]. reflexivity.
Qed.

(** X1: a file that opens and reads to its end gives one record per line
    that is not blank, in the order of the lines, each holding the trimmed
    line; nothing is printed and the world is left as it was. *)
Theorem process_log_file_readable (w : world) (filepath : path)
    (name : pystr) (f : file) :
  resolve (w_fs w) filepath = Some (File name f) ->
  f_open f = None ->
  f_fail f = None ->
  process_log_file filepath w
  = (Return (map Record_ (nonblank_trimmed (f_lines f))), w)
  /\ List.length (nonblank_trimmed (f_lines f)) <= List.length (f_lines f).
Proof.
  intros Hres Hopen Hfail. split.
  - rewrite process_log_file_run. unfold open_, read_lines.
    rewrite Hres, Hopen, Hfail. cbn [fst snd].
    now rewrite parse_lines_nonblank.
  - unfold nonblank_trimmed. rewrite length_map. apply filter_length_le.
Qed.

Example process_log_file_readable_witness :
  process_log_file [lit "logs"; lit "a.txt"]
                   (scenario_world [a_txt true; b_txt true])
  = (Return [Record_ (lit "foo"); Record_ (lit "bar")],
     scenario_world [a_txt true; b_txt true]).
Proof.
  exact (proj1 (process_log_file_readable
                  (scenario_world [a_txt true; b_txt true])
                  [lit "logs"; lit "a.txt"] (lit "a.txt")
                  (plain_file [lit "foo" ++ newline; newline;
                               lit "  bar  " ++ newline])
                  eq_refl eq_refl eq_refl)).
Defined.

(** X2: whatever happens while the file is read, every record that
    [process_log_file] returns holds a text that is not empty, that neither
    begins nor ends with whitespace, and that is a line of the file with
    nothing but whitespace taken off its two ends. *)
Theorem process_log_file_records_trimmed (w w' : world) (filepath : path)
    (records : list pyval) (r : pyval) :
  process_log_file filepath w = (Return records, w') ->
  In r records ->
  exists s line l rt name f,
    r = Record_ s
    /\ s <> []
    /\ (forall c t, s = c :: t -> isspace c = false)
    /\ (forall v c, s = v ++ [c] -> isspace c = false)
    /\ resolve (w_fs w) filepath = Some (File name f)
    /\ In line (f_lines f)
    /\ line = l ++ s ++ rt
    /\ forallb isspace l = true /\ forallb isspace rt = true.
Proof.
  rewrite process_log_file_run. unfold open_.
  destruct (resolve (w_fs w) filepath)
    as [[name f|name sub|name sub|name sub]|] eqn:Hres;
    try (intros H; injection H as <- _; intros []).
  2: { destruct (fsencode_error filepath);
         [|destruct (through_file (w_fs w) filepath)];
         intros H; injection H as <- _; intros []. }
  destruct (f_open f); [intros H; injection H as <- _; intros []|].
  assert (Hl : forall x, In x (fst (read_lines f)) -> In x (f_lines f)).
  { unfold read_lines. destruct (f_fail f) as [[k e]|]; [|auto].
    destruct (k <=? List.length (f_lines f))%nat; cbn [fst]; [|auto].
    intros x Hx. rewrite <- (firstn_skipn k (f_lines f)).
    apply in_or_app. now left. }
  intros H Hin.
  assert (Hr : In r (parse_lines (fst (read_lines f)) [])).
  { destruct (snd (read_lines f)); injection H as <- _; exact Hin. }
  apply parse_lines_records in Hr as [line [Hline [Hne ->]]].
  destruct (strip_split line) as [l [rt [Hs [Hwl Hwr]]]].
  destruct (strip_ends line) as [Hhd Hlast].
  exists (strip line), line, l, rt, name, f.
  repeat split; auto.
Qed.

Example process_log_file_records_trimmed_witness :
  exists s line l rt name f,
    Record_ (lit "bar") = Record_ s
    /\ s <> []
    /\ (forall c t, s = c :: t -> isspace c = false)
    /\ (forall v c, s = v ++ [c] -> isspace c = false)
    /\ resolve (w_fs (scenario_world [a_txt true; b_txt true]))
               [lit "logs"; lit "a.txt"] = Some (File name f)
    /\ In line (f_lines f)
    /\ line = l ++ s ++ rt
    /\ forallb isspace l = true /\ forallb isspace rt = true.
Proof.
  refine (process_log_file_records_trimmed
            (scenario_world [a_txt true; b_txt true])
            (scenario_world [a_txt true; b_txt true])
            [lit "logs"; lit "a.txt"]
            [Record_ (lit "foo"); Record_ (lit "bar")]
            (Record_ (lit "bar")) _ _).
  - reflexivity.
  - right. left. reflexivity.
Defined.

(** ** The lines on the wire *)

Lemma is_printable_app (a b : pystr) :
  is_printable (a ++ b) = is_printable a && is_printable b.
Proof. apply forallb_app. Qed.

Lemma is_printable_flat_map {A} (f : A -> pystr) (l : list A) :
  (forall x, In x l -> is_printable (f x) = true) ->
  is_printable (flat_map f l) = true.
Proof.
  induction l as [|x r IH]; simpl; intros H; [reflexivity|].
  rewrite is_printable_app, H, IH; auto.
Qed.

Lemma hexdigit_printable (n : N) :
  (n < 16)%N -> is_printable [Json.hexdigit n] = true.
Proof.
  intros Hn. unfold Json.hexdigit.
  assert (H : forall k l, is_printable l = true ->
                          is_printable [nth k l 48%N] = true).
  { intros k l. revert k. induction l as [|c t IH]; intros k Hl.
    - destruct k; reflexivity.
    - simpl in Hl. apply andb_prop in Hl as [Hc Ht].
      destruct k as [|k]; cbn [nth]; [|now apply IH].
      simpl. now rewrite Hc. }
  rewrite (nth_indep _ 0%N 48%N) by (simpl; lia).
  apply H. reflexivity.
Qed.

Lemma escape_u_printable (n : N) : is_printable (Json.escape_u n) = true.
Proof.
  unfold Json.escape_u.
  assert (H : forall m, is_printable [Json.hexdigit (m mod 16)] = true)
    by (intros m; apply hexdigit_printable, N.mod_lt; discriminate).
  change (is_printable
            (lit "\u" ++ [Json.hexdigit ((n / 4096) mod 16)]
                      ++ [Json.hexdigit ((n / 256) mod 16)]
                      ++ [Json.hexdigit ((n / 16) mod 16)]
                      ++ [Json.hexdigit (n mod 16)]) = true).
  now rewrite !is_printable_app, !H.
Qed.

Lemma escape_char_printable (c : char) :
  is_printable (Json.escape_char c) = true.
Proof.
  unfold Json.escape_char.
  repeat match goal with
         | |- context [if (?a =? ?b)%N then _ else _] =>
             destruct (a =? b)%N; [reflexivity|]
         end.
  destruct ((32 <=? c) && (c <=? 126))%N eqn:E.
  - simpl. now rewrite E.
  - destruct (c <? 65536)%N; cbv zeta;
      rewrite ?is_printable_app, !escape_u_printable; reflexivity.
Qed.

Lemma encode_basestring_printable (s : pystr) :
  is_printable (Json.encode_basestring_ascii s) = true.
Proof.
  unfold Json.encode_basestring_ascii.
  change (34%N :: flat_map Json.escape_char s ++ [34%N])
    with ([34%N] ++ flat_map Json.escape_char s ++ [34%N]).
  rewrite !is_printable_app, is_printable_flat_map; [reflexivity|].
  intros c _. apply escape_char_printable.
Qed.

Lemma int_repr_printable (z : Z) : is_printable (Json.int_repr z) = true.
Proof.
  assert (H : forall u, is_printable (Json.uint_digits u) = true)
    by (induction u; simpl; auto).
  unfold Json.int_repr. destruct (Z.to_int z); simpl; auto.
Qed.

Lemma join_printable (sep : pystr) (parts : list pystr) :
  is_printable sep = true -> Forall (fun p => is_printable p = true) parts ->
  is_printable (Json.join sep parts) = true.
Proof.
  intros Hsep H. induction H as [|p rest Hp Hrest IH]; [reflexivity|].
  simpl. destruct rest as [|q rest']; [exact Hp|].
  rewrite !is_printable_app, Hp, Hsep. exact IH.
Qed.

(** What [Json.dumps] returns is printable ASCII: no control character, no
    newline. *)
Lemma dumps_printable (v : pyval) (s : pystr) :
  Json.dumps v = Return s -> is_printable s = true.
Proof.
  revert s.
  induction v as [|b|z|t|items IH|items IH|] using pyval_nested_ind;
    intros s.
  - simpl. intros H. now injection H as <-.
  - destruct b; simpl; intros H; now injection H as <-.
  - simpl. intros H. injection H as <-. apply int_repr_printable.
  - simpl. intros H. injection H as <-. apply encode_basestring_printable.
  - assert (Hel : forall parts, dumps_elems items = Return parts ->
                    Forall (fun p => is_printable p = true) parts).
    { induction IH as [|x r Hx _ IHr]; simpl; intros parts H.
      - injection H as <-. constructor.
      - destruct (Json.dumps x) as [sx|ex]; [|discriminate].
        destruct (dumps_elems r) as [sr|er]; [|discriminate].
        injection H as <-. constructor; auto. }
    rewrite dumps_PyList.
    destruct (dumps_elems items) as [parts|e0]; [|discriminate].
    intros H. injection H as <-.
    change (is_printable ([91%N] ++ Json.join (lit ", ") parts ++ lit "]")
            = true).
    rewrite !is_printable_app, join_printable; auto.
  - assert (Hel : forall parts, dumps_members items = Return parts ->
                    Forall (fun p => is_printable p = true) parts).
    { induction IH as [|[k x] r Hx _ IHr]; simpl in *; intros parts H.
      - injection H as <-. constructor.
      - destruct (Json.key_text k) as [sk|ek]; [|discriminate].
        destruct (Json.dumps x) as [sx|ex]; [|discriminate].
        destruct (dumps_members r) as [sr|er]; [|discriminate].
        injection H as <-. constructor; auto.
        change (is_printable (Json.encode_basestring_ascii sk
                              ++ lit ": " ++ sx) = true).
        rewrite !is_printable_app, encode_basestring_printable.
        simpl. now apply Hx. }
    rewrite dumps_PyDict.
    destruct (dumps_members items) as [parts|e0]; [|discriminate].
    intros H. injection H as <-.
    change (is_printable ([123%N] ++ Json.join (lit ", ") parts ++ lit "}")
            = true).
    rewrite !is_printable_app, join_printable; auto.
  - discriminate.
Qed.

Lemma printable_no_newline (s : pystr) :
  is_printable s = true -> count_occ N.eq_dec s 10%N = 0.
Proof.
  induction s as [|c t IH]; [reflexivity|].
  simpl. intros H. apply andb_prop in H as [Hc Ht].
  apply andb_prop in Hc as [Hc _]. apply N.leb_le in Hc.
  destruct (N.eq_dec c 10); [lia|auto].
Qed.

(** X3: the line of a record that serializes is its JSON text, all of it
    printable ASCII, followed by one newline, the only one in the line; so a
    stream of such lines holds as many newlines as records, and its UTF-8
    encoding is the text itself. *)
Theorem wire_lines_framed (data_list : list pyval) :
  Forall serializable data_list ->
  Forall (fun d => exists json_string,
            Json.dumps d = Return json_string
            /\ wire_line d = json_string ++ newline
            /\ is_printable json_string = true
            /\ ~ In 10%N json_string) data_list
  /\ count_occ N.eq_dec (flat_map wire_line data_list) 10%N
     = List.length data_list
  /\ Utf8.encode (flat_map wire_line data_list)
     = Return (flat_map wire_line data_list).
Proof.
  intros Hser. split; [|split].
  - eapply Forall_impl; [|exact Hser]. intros d Hd.
    destruct (wire_line_serializable d Hd) as [s [H1 [H2 _]]].
    exists s. pose proof (dumps_printable d s H1) as Hp.
    repeat split; auto.
    apply (count_occ_not_In N.eq_dec). now apply printable_no_newline.
  - induction Hser as [|d rest Hd _ IH]; [reflexivity|].
    change (flat_map wire_line (d :: rest))
      with (wire_line d ++ flat_map wire_line rest).
    rewrite count_occ_app.
    destruct (wire_line_serializable d Hd) as [s [H1 [H2 _]]].
    rewrite H2, count_occ_app. unfold char.
    rewrite (printable_no_newline s (dumps_printable d s H1)).
    change (count_occ N.eq_dec newline 10%N) with 1.
    cbn [Nat.add List.length]. f_equal. exact IH.
  - apply utf8_encode_ascii, is_ascii_flat_map.
    intros; apply wire_line_ascii.
Qed.

Example wire_lines_framed_witness :
  count_occ N.eq_dec (flat_map wire_line sample_records) 10%N = 150.
Proof.
  assert (H : Forall serializable sample_records).
  { apply Forall_forall. intros r Hr. unfold sample_records in Hr.
    apply in_map_iff in Hr as [k [<- _]]. eexists. apply dumps_Record. }
  exact (proj1 (proj2 (wire_lines_framed sample_records H))).
Defined.

(** ** Scanning the folder *)

Lemma collect_files_paths (items : list walk_item) (acc : list path) :
  collect_files items acc
  = acc ++ flat_map (fun item : walk_item =>
                       let '(dirpath, _, names) := item in
                       map (path_join dirpath) names) items.
Proof.
  revert acc. induction items as [|[[dirpath ds] names] rest IH]; intros acc.
  - simpl. now rewrite app_nil_r.
  - cbn [collect_files flat_map]. rewrite IH.
    assert (H : forall l a,
              fold_left (fun acc0 filename =>
                           acc0 ++ [path_join dirpath filename]) l a
              = a ++ map (path_join dirpath) l).
    { induction l as [|x l IHl]; intros a; simpl.
      - now rewrite app_nil_r.
      - rewrite IHl, <- app_assoc. reflexivity. }
    now rewrite H, <- app_assoc.
Qed.

Lemma walk_listing (top : path) (n : node) (entries : list node) :
  listing n = Some entries ->
  walk top n
  = (top, dirnames entries, filenames entries)
    :: flat_map (fun e => match e with
                          | Dir nm _ => walk (path_join top nm) e
                          | _ => []
                          end) entries.
Proof.
  intros H.
  assert (E : forall l,
            (fix subdirs (l : list node) : list walk_item :=
               match l with
               | [] => []
               | e :: r =>
                   match e with
                   | Dir name _ | Locked name _ => walk (path_join top name) e
                   | DirLink _ _ => []
                   | File _ _ => []
                   end ++ subdirs r
               end) l
            = flat_map (fun e => match e with
                                 | Dir nm _ => walk (path_join top nm) e
                                 | _ => []
                                 end) l).
  { induction l as [|e r IH]; [reflexivity|].
    cbn [flat_map]. rewrite IH. now destruct e. }
  destruct n as [nm f|nm sub|nm sub|nm sub]; try discriminate;
    injection H as ->; cbn [walk]; now rewrite E.
Qed.

Lemma walk_unlisted (top : path) (n : node) :
  listing n = None -> walk top n = [].
Proof. destruct n; (discriminate || reflexivity). Qed.

Lemma collect_walk_listing (top : path) (n : node) (entries : list node) :
  listing n = Some entries ->
  collect_files (walk top n) []
  = map (path_join top) (filenames entries)
    ++ flat_map (fun e => match e with
                          | Dir nm _ =>
                              collect_files (walk (path_join top nm) e) []
                          | _ => []
                          end) entries.
Proof.
  intros H. rewrite (walk_listing top n entries H), collect_files_paths.
  cbn [app flat_map]. f_equal.
  induction entries as [|e r IH] in |- *; [reflexivity|].
  cbn [flat_map]. rewrite flat_map_app, IH. f_equal.
  destruct e as [nm f|nm sub|nm sub|nm sub]; try reflexivity.
  now rewrite collect_files_paths.
Qed.

Lemma filenames_In (entries : list node) (fname : pystr) :
  In fname (filenames entries) <-> exists f, In (File fname f) entries.
Proof.
  unfold filenames. rewrite in_map_iff. split.
  - intros [e [<- He]]. apply filter_In in He as [He Hf].
    destruct e as [nm f|nm sub|nm sub|nm sub]; try discriminate. now exists f.
  - intros [f Hf]. exists (File fname f). split; [reflexivity|].
    apply filter_In. now split.
Qed.

Lemma files_in_Dir (name : pystr) (entries : list node) :
  files_in (Dir name entries) = list_sum (map files_in entries).
Proof.
  cbn [files_in]. induction entries as [|e r IH]; [reflexivity|].
  cbn [map]. unfold list_sum in *. cbn [fold_right]. now rewrite IH.
Qed.

(** X4: the scan collects exactly the entries that are not directories and
    that the walk reaches: a path is collected if and only if the folder can
    be listed and the path is the folder's path followed by a relative path
    that leads to such an entry through directories that are neither
    symbolic links nor closed to listing.  Directories are not collected,
    nothing below a linked or an unlistable directory is, and the number of
    collected paths is the number of these entries. *)
Theorem collect_files_reachable (n : node) (top : path) :
  (forall p, In p (collect_files (walk top n) [])
             <-> exists entries rel,
                   listing n = Some entries
                   /\ p = top ++ rel /\ file_below entries rel)
  /\ List.length (collect_files (walk top n) []) = files_found n.
Proof.
  revert top.
  assert (Hlisted : forall n entries,
            listing n = Some entries ->
            Forall (fun e => forall top,
                      (forall p, In p (collect_files (walk top e) [])
                                 <-> exists entries rel,
                                       listing e = Some entries
                                       /\ p = top ++ rel
                                       /\ file_below entries rel)
                      /\ List.length (collect_files (walk top e) [])
                         = files_found e) entries ->
            forall top,
              (forall p, In p (collect_files (walk top n) [])
                         <-> exists entries rel,
                               listing n = Some entries
                               /\ p = top ++ rel /\ file_below entries rel)
              /\ List.length (collect_files (walk top n) []) = files_found n).
  { clear n. intros n entries Hn IH top.
    rewrite (collect_walk_listing top n entries Hn). unfold files_found.
    rewrite Hn. split.
    - intros p. rewrite in_app_iff, in_map_iff, in_flat_map. split.
      + intros [[fname [<- Hf]]|[e [He Hp]]].
        * apply filenames_In in Hf as [f Hf].
          exists entries, [fname]. split; [reflexivity|].
          split; [reflexivity|]. econstructor; eauto.
        * destruct e as [nm f|nm sub|nm sub|nm sub]; try destruct Hp.
          rewrite Forall_forall in IH.
          apply (proj1 (IH _ He (path_join top nm))) in Hp
            as [sub' [rel [Hsub [-> Hrel]]]].
          injection Hsub as <-.
          exists entries, (nm :: rel). unfold path_join.
          rewrite <- app_assoc.
          split; [reflexivity|]. split; [reflexivity|].
          econstructor; eauto.
      + intros [entries' [rel [Hl [-> H]]]]. injection Hl as <-.
        inversion H as [? fname f Hf|? dname sub rel' Hd Hrel]; subst.
        * left. exists fname. split; [reflexivity|].
          apply filenames_In. eauto.
        * right. exists (Dir dname sub). split; [exact Hd|].
          rewrite Forall_forall in IH.
          apply (proj1 (IH _ Hd (path_join top dname))).
          exists sub, rel'. unfold path_join. rewrite <- app_assoc.
          split; [reflexivity|]. split; [reflexivity|exact Hrel].
    - rewrite length_app, length_map. unfold filenames. rewrite length_map.
      clear Hn. induction IH as [|e r He _ IHr]; [reflexivity|].
      cbn [filter flat_map map]. unfold list_sum in *. cbn [fold_right].
      rewrite length_app, <- IHr.
      destruct e as [nm f|nm sub|nm sub|nm sub];
        cbn [is_dir negb List.length app files_in]; try lia.
      rewrite (proj2 (He (path_join top nm))). unfold files_found.
      cbn [listing]. rewrite <- (files_in_Dir nm sub). cbn [files_in]. lia. }
  assert (Hunlisted : forall n,
            listing n = None ->
            forall top,
              (forall p, In p (collect_files (walk top n) [])
                         <-> exists entries rel,
                               listing n = Some entries
                               /\ p = top ++ rel /\ file_below entries rel)
              /\ List.length (collect_files (walk top n) []) = files_found n).
  { clear n. intros n Hn top. rewrite (walk_unlisted top n Hn).
    unfold files_found. rewrite Hn. split; [|reflexivity].
    intros p. split; [intros []|]. intros [entries [rel [H _]]]. discriminate. }
  induction n as [name f|name entries IH|name entries IH|name entries IH]
    using node_nested_ind.
  - now apply Hunlisted.
  - now apply (Hlisted _ entries).
  - now apply (Hlisted _ entries).
  - now apply Hunlisted.
Qed.

Example collect_files_reachable_witness :
  List.length (collect_files (walk [lit "logs"] linked_tree) []) = 2
  /\ collect_files (walk [lit "logs"] linked_tree) []
     = [[lit "logs"; lit "a.log"]; [lit "logs"; lit "old"; lit "b.log"]].
Proof.
  split; [|reflexivity].
  rewrite (proj2 (collect_files_reachable linked_tree [lit "logs"])).
  reflexivity.
Defined.

(** ** Sending, whatever the records *)

Lemma serialize_errors_app (a b : list pyval) :
  serialize_errors (a ++ b) = serialize_errors a ++ serialize_errors b.
Proof. apply flat_map_app. Qed.

Lemma serialize_errors_writes (batch : list pyval) :
  writes (serialize_errors batch) = [].
Proof.
  unfold serialize_errors. induction batch as [|d r IH]; [reflexivity|].
  cbn [flat_map]. rewrite writes_app, IH.
  now destruct (Json.dumps d).
Qed.

Lemma serialize_errors_all_reports (batch : list pyval) :
  serialization_reports (serialize_errors batch) = serialize_errors batch.
Proof.
  unfold serialize_errors, serialization_reports.
  induction batch as [|d r IH]; [reflexivity|].
  cbn [flat_map]. rewrite filter_app, IH.
  now destruct (Json.dumps d).
Qed.

(** The batch loop against a network that accepts, whatever the records. *)
Lemma send_batches_accepting (data_list : list pyval) (indices : list nat)
    (sent_count : nat) (w : world) :
  accepting w ->
  let bs := map (fun i => slice data_list i (i + batch_size)) indices in
  send_batches data_list indices sent_count w
  = (Return (Finished (sent_count + list_sum (map batch_sent bs))),
     step_world (flat_map batch_events bs)
                (List.length (filter nonempty (map batch_text bs))) w).
Proof.
  revert sent_count w.
  induction indices as [|i rest IH]; intros sc w Hacc; cbv zeta.
  - simpl. unfold ret. now rewrite Nat.add_0_r, step_world_nil.
  - cbn [send_batches map flat_map list_sum filter].
    set (batch := slice data_list i (i + batch_size)).
    unfold bind at 1. rewrite serialize_batch_run. cbn [app].
    fold (batch_text batch). unfold batch_events at 1, batch_sent at 1.
    remember (step_world (serialize_errors batch) 0 w) as w1 eqn:Ew.
    assert (Hacc1 : accepting w1) by (rewrite Ew; exact Hacc).
    destruct (nonempty (batch_text batch)) eqn:Ene; cbn [negb].
    + unfold bind at 1, try_except, bind at 1, lift.
      rewrite utf8_encode_ascii
        by (apply is_ascii_flat_map; intros; apply wire_line_ascii).
      unfold bind at 1, sendall, net_op.
      rewrite (Hacc1 _ (le_n _)). unfold ret at 1. rewrite tick_emit_step.
      rewrite IH by (intros k Hk; apply Hacc1; simpl in Hk; lia).
      rewrite Ew, !step_world_step. cbn [List.length]. f_equal.
      * do 2 f_equal. unfold list_sum. cbn [fold_right]. lia.
      * apply world_eq; simpl; try reflexivity; try lia.
        now rewrite <- !app_assoc.
    + rewrite IH by exact Hacc1. rewrite Ew, step_world_step, app_nil_r.
      reflexivity.
Qed.

Lemma writes_batch_events (bs : list (list pyval)) :
  writes (flat_map batch_events bs) = filter nonempty (map batch_text bs).
Proof.
  induction bs as [|b r IH]; [reflexivity|].
  cbn [flat_map map filter]. rewrite writes_app, IH.
  unfold batch_events. rewrite writes_app, serialize_errors_writes.
  now destruct (nonempty (batch_text b)).
Qed.

Lemma reports_batch_events (bs : list (list pyval)) :
  serialization_reports (flat_map batch_events bs)
  = serialize_errors (List.concat bs).
Proof.
  induction bs as [|b r IH]; [reflexivity|].
  cbn [flat_map List.concat]. unfold serialization_reports in *.
  rewrite filter_app, IH, serialize_errors_app. f_equal.
  unfold batch_events. rewrite filter_app.
  fold (serialization_reports (serialize_errors b)).
  rewrite serialize_errors_all_reports.
  destruct (nonempty (batch_text b)); simpl; now rewrite app_nil_r.
Qed.

Lemma concat_filter_nonempty {A} (l : list (list A)) :
  List.concat (filter nonempty l) = List.concat l.
Proof.
  induction l as [|x r IH]; [reflexivity|].
  destruct x as [|a x]; simpl; [exact IH|]. now rewrite IH.
Qed.

Lemma wire_line_unserializable (d : pyval) :
  serializes d = false -> wire_line d = [].
Proof. unfold serializes, wire_line. now destruct (Json.dumps d). Qed.

Lemma wire_lines_filter (l : list pyval) :
  flat_map wire_line l = flat_map wire_line (filter serializes l).
Proof.
  induction l as [|d r IH]; [reflexivity|].
  cbn [flat_map filter]. destruct (serializes d) eqn:E.
  - cbn [flat_map]. now rewrite IH.
  - now rewrite (wire_line_unserializable d E).
Qed.

Lemma serialize_errors_count (l : list pyval) :
  List.length (serialize_errors l) + List.length (filter serializes l)
  = List.length l.
Proof.
  unfold serialize_errors, serializes.
  induction l as [|d r IH]; [reflexivity|].
  cbn [flat_map filter]. rewrite length_app.
  destruct (Json.dumps d); simpl in *; lia.
Qed.

Lemma batch_sent_bounds (b : list pyval) :
  List.length (filter serializes b) <= batch_sent b <= List.length b.
Proof.
  unfold batch_sent. destruct (nonempty (batch_text b)) eqn:E.
  - split; [apply filter_length_le|lia].
  - split; [|lia]. unfold batch_text in E. rewrite wire_lines_filter in E.
    destruct (filter serializes b) as [|d r] eqn:Ef; [simpl; lia|].
    exfalso. assert (Hd : serializes d = true).
    { assert (Hin : In d (filter serializes b)) by (rewrite Ef; now left).
      now apply filter_In in Hin. }
    unfold serializes in Hd. cbn [flat_map] in E. unfold wire_line at 1 in E.
    destruct (Json.dumps d) as [s|]; [|discriminate].
    destruct s; discriminate.
Qed.

Lemma batches_sent_bounds (bs : list (list pyval)) :
  List.length (filter serializes (List.concat bs))
  <= list_sum (map batch_sent bs) <= List.length (List.concat bs).
Proof.
  induction bs as [|b r IH]; [simpl; lia|].
  cbn [List.concat map]. unfold list_sum in *. cbn [fold_right].
  rewrite filter_app, !length_app.
  pose proof (batch_sent_bounds b). lia.
Qed.

(** X5: against an endpoint that accepts, a list that is not empty and that
    mixes records of the pipeline with values the encoder has no rule for is
    sent: the call returns [True], each value that does not serialize is
    reported once, with its [TypeError], and left out, a batch with no line
    left is not written, and the written buffers put end to end are the lines
    of the records, in order.  The count it prints adds the whole size of
    every written batch, so it lies between the number of lines written and
    the number of values. *)
Theorem send_to_logstash_skips_unserializable (h : host) (p : port)
    (data_list : list pyval) (w : world) :
  data_list <> [] ->
  Forall record_or_refused data_list ->
  accepting w ->
  exists evs sent_count,
    send_to_logstash h p data_list w
    = (Return true, step_world evs (S (List.length (payloads data_list))) w)
    /\ evs = [EConnect h p 10%N None; EPrint (MsgConnected h p)]
             ++ flat_map batch_events (batches data_list)
             ++ [EPrint (MsgSent sent_count); EClose]
    /\ writes evs = payloads data_list
    /\ List.concat (writes evs)
       = flat_map wire_line (filter serializes data_list)
    /\ serialization_reports evs = serialize_errors data_list
    /\ Forall (fun ev => ev = EPrint (MsgSerializeError PyObject TypeError))
              (serialization_reports evs)
    /\ Forall (fun d => exists s, d = Record_ s) (filter serializes data_list)
    /\ List.length (serialization_reports evs)
       + List.length (filter serializes data_list)
       = List.length data_list
    /\ List.length (filter serializes data_list) <= sent_count
       <= List.length data_list.
Proof.
  intros Hne Hmix Hacc.
  exists ([EConnect h p 10%N None; EPrint (MsgConnected h p)]
          ++ flat_map batch_events (batches data_list)
          ++ [EPrint (MsgSent (list_sum (map batch_sent (batches data_list))));
              EClose]),
    (list_sum (map batch_sent (batches data_list))).
  assert (Hw : writes ([EConnect h p 10%N None; EPrint (MsgConnected h p)]
                       ++ flat_map batch_events (batches data_list)
                       ++ [EPrint (MsgSent (list_sum (map batch_sent
                                                      (batches data_list))));
                           EClose])
               = payloads data_list).
  { rewrite !writes_app, writes_batch_events. cbn [writes flat_map app].
    now rewrite app_nil_r. }
  assert (Hr : serialization_reports
                 ([EConnect h p 10%N None; EPrint (MsgConnected h p)]
                  ++ flat_map batch_events (batches data_list)
                  ++ [EPrint (MsgSent (list_sum (map batch_sent
                                                 (batches data_list))));
                      EClose])
               = serialize_errors data_list).
  { unfold serialization_reports. rewrite !filter_app.
    fold (serialization_reports (flat_map batch_events (batches data_list))).
    rewrite reports_batch_events, batches_concat. cbn [filter app].
    now rewrite app_nil_r. }
  split; [|split; [reflexivity|split; [exact Hw|split;
    [|split; [exact Hr|split; [|split; [|split]]]]]]].
  - rewrite (send_to_logstash_run h p data_list w Hne), (Hacc _ (le_n _)).
    rewrite send_batches_accepting
      by (intros i Hi; apply Hacc; simpl in Hi; lia).
    fold (batches data_list). unfold payloads.
    rewrite !step_world_step. f_equal.
    apply world_eq; simpl; try reflexivity.
    now rewrite Nat.add_0_r.
  - rewrite Hw. unfold payloads.
    rewrite concat_filter_nonempty. unfold batch_text.
    rewrite concat_wire_lines, batches_concat. apply wire_lines_filter.
  - rewrite Hr. unfold serialize_errors. apply Forall_flat_map.
    eapply Forall_impl; [|exact Hmix].
    intros d [[s ->]| ->]; [rewrite dumps_Record; constructor|].
    cbn. now repeat constructor.
  - apply Forall_forall. intros d Hd. apply filter_In in Hd as [Hd Hs].
    rewrite Forall_forall in Hmix.
    destruct (Hmix d Hd) as [Hrec| ->]; [exact Hrec|discriminate].
  - rewrite Hr. apply serialize_errors_count.
  - pose proof (batches_sent_bounds (batches data_list)) as Hb.
    now rewrite batches_concat in Hb.
Qed.

Example send_to_logstash_skips_unserializable_witness :
  exists evs sent_count,
    send_to_logstash LOGSTASH_HOST LOGSTASH_PORT
                     [Record_ (lit "a"); PyObject]
                     (initial_world [] net_accepting)
    = (Return true, step_world evs 2 (initial_world [] net_accepting))
    /\ writes evs = [wire_line (Record_ (lit "a"))]
    /\ 1 <= sent_count <= 2.
Proof.
  assert (H1 : [Record_ (lit "a"); PyObject] <> []) by discriminate.
  assert (H2 : accepting (initial_world [] net_accepting))
    by (intros i _; reflexivity).
  assert (H3 : Forall record_or_refused [Record_ (lit "a"); PyObject]).
  { constructor; [left; now exists (lit "a")|].
    constructor; [now right|constructor]. }
  destruct (send_to_logstash_skips_unserializable LOGSTASH_HOST LOGSTASH_PORT
              [Record_ (lit "a"); PyObject]
              (initial_world [] net_accepting) H1 H3 H2)
    as [evs [sc [E [_ [W [_ [_ [_ [_ [_ B]]]]]]]]]].
  exists evs, sc. split; [exact E|]. split; [exact W|exact B].
Defined.

(** ** Sending, whatever the network *)

Lemma closes_app (a b : list event) : closes (a ++ b) = closes a + closes b.
Proof. unfold closes. now rewrite filter_app, length_app. Qed.

Lemma prints_only_app (a b : list event) :
  prints_only a -> prints_only b -> prints_only (a ++ b).
Proof. intros Ha Hb. apply Forall_app. now split. Qed.

Lemma prints_only_quiet (evs : list event) :
  prints_only evs ->
  net_results evs = [] /\ writes evs = [] /\ connects evs = 0
  /\ closes evs = 0 /\ sleeps evs = [].
Proof.
  induction 1 as [|ev r [m ->] _ IH]; [now repeat split|].
  destruct IH as [H1 [H2 [H3 [H4 H5]]]].
  unfold connects, closes in *. simpl. repeat split; assumption.
Qed.

Lemma serialize_errors_prints (batch : list pyval) :
  prints_only (serialize_errors batch).
Proof.
  unfold serialize_errors. induction batch as [|d r IH]; [constructor|].
  cbn [flat_map]. apply prints_only_app; [|exact IH].
  destruct (Json.dumps d); repeat constructor. eauto.
Qed.

(** The batch loop in any world: what it writes is a beginning of the
    buffers of the batches, in their order, all of them when it runs to its
    end; it opens and closes nothing and never pauses. *)
Lemma send_batches_shape (data_list : list pyval) (indices : list nat)
    (sent_count : nat) (w : world) :
  let bufs := filter nonempty
                (map batch_text
                     (map (fun i => slice data_list i (i + batch_size))
                          indices)) in
  exists r w' evs k,
    send_batches data_list indices sent_count w = (r, w')
    /\ w_trace w' = w_trace w ++ evs
    /\ writes evs = firstn k bufs
    /\ closes evs = 0 /\ connects evs = 0 /\ sleeps evs = []
    /\ (forall sc, r = Return (Finished sc) -> writes evs = bufs).
Proof.
  cbv zeta. revert sent_count w.
  induction indices as [|i rest IH]; intros sc w.
  - exists (Return (Finished sc)), w, [], 0. simpl.
    rewrite app_nil_r. now repeat split.
  - cbn [send_batches map filter].
    set (batch := slice data_list i (i + batch_size)).
    unfold bind at 1. rewrite serialize_batch_run. cbn [app].
    fold (batch_text batch).
    destruct (prints_only_quiet _ (serialize_errors_prints batch))
      as [_ [Qw [Qc [Qcl Qs]]]].
    remember (step_world (serialize_errors batch) 0 w) as w1 eqn:Ew.
    assert (Tw : w_trace w1 = w_trace w ++ serialize_errors batch)
      by now rewrite Ew.
    destruct (nonempty (batch_text batch)) eqn:Ene; cbn [negb].
    + unfold bind at 1, try_except, bind at 1, lift.
      rewrite utf8_encode_ascii
        by (apply is_ascii_flat_map; intros; apply wire_line_ascii).
      unfold bind at 1, sendall, net_op. rewrite tick_emit_step.
      destruct (w_net w1 (w_clock w1)) as [e|].
      * destruct (is_socket_error e).
        -- unfold bind at 1, print at 1, ret. rewrite emit_step.
           eexists _, _,
             (serialize_errors batch
              ++ [ESendall (batch_text batch) (Some e);
                  EPrint (MsgSocketSendError e)]), 1.
           split; [reflexivity|].
           split; [simpl; now rewrite Tw, <- !app_assoc|].
           rewrite writes_app, closes_app, connects_app, sleeps_app.
           rewrite Qw, Qc, Qcl, Qs. repeat split. discriminate.
        -- eexists _, _,
             (serialize_errors batch
              ++ [ESendall (batch_text batch) (Some e)]), 1.
           split; [reflexivity|].
           split; [simpl; now rewrite Tw, <- !app_assoc|].
           rewrite writes_app, closes_app, connects_app, sleeps_app.
           rewrite Qw, Qc, Qcl, Qs. repeat split. discriminate.
      * unfold ret at 1.
        destruct (IH (sc + List.length batch)
                     (step_world [ESendall (batch_text batch) None] 1 w1))
          as [r [w' [evs [k [E [T [W [Cl [Co [Sl F]]]]]]]]]].
        exists r, w',
          (serialize_errors batch
           ++ [ESendall (batch_text batch) None] ++ evs), (S k).
        split; [exact E|].
        split; [rewrite T; simpl; now rewrite Tw, <- !app_assoc|].
        rewrite !writes_app, !closes_app, !connects_app, !sleeps_app.
        rewrite Qw, Qc, Qcl, Qs, W, Cl, Co, Sl. repeat split.
        intros sc' Hr. cbn [writes flat_map app]. f_equal.
        rewrite <- W. now apply (F sc').
    + destruct (IH sc w1) as [r [w' [evs [k [E [T [W [Cl [Co [Sl F]]]]]]]]]].
      exists r, w', (serialize_errors batch ++ evs), k.
      split; [exact E|].
      split; [now rewrite T, Tw, <- app_assoc|].
      rewrite !writes_app, !closes_app, !connects_app, !sleeps_app.
      rewrite Qw, Qc, Qcl, Qs, W, Cl, Co, Sl. repeat split.
      intros sc' Hr. rewrite <- W. now apply (F sc').
Qed.

(** One call in any world: either no connection is opened, or the events are
    the connection, the batch loop, the closing and prints. *)
Lemma send_to_logstash_shape (h : host) (p : port) (data_list : list pyval)
    (w : world) :
  exists b w' evs,
    send_to_logstash h p data_list w = (Return b, w')
    /\ w_trace w' = w_trace w ++ evs
    /\ ((data_list = [] /\ b = true /\ prints_only evs)
        \/ (data_list <> []
            /\ exists e m, w_net w (w_clock w) = Some e /\ b = false
                           /\ evs = [EConnect h p 10%N (Some e); EPrint m])
        \/ (data_list <> [] /\ w_net w (w_clock w) = None
            /\ exists mid after k,
                 evs = EConnect h p 10%N None :: mid ++ EClose :: after
                 /\ writes mid = firstn k (payloads data_list)
                 /\ closes mid = 0 /\ connects mid = 0 /\ sleeps mid = []
                 /\ prints_only after
                 /\ (b = true -> writes mid = payloads data_list))).
Proof.
  destruct data_list as [|d0 rest] eqn:Ed.
  { exists true, (step_world [EPrint MsgNoData] 0 w), [EPrint MsgNoData].
    split; [reflexivity|]. split; [reflexivity|]. left.
    repeat split. repeat constructor. eauto. }
  rewrite <- Ed. assert (Hne : data_list <> []) by (rewrite Ed; discriminate).
  clear Ed. rewrite (send_to_logstash_run h p data_list w Hne).
  destruct (w_net w (w_clock w)) as [e|] eqn:Enet.
  - eexists false, _, _. split; [reflexivity|]. split; [reflexivity|].
    right. left. split; [exact Hne|]. eauto.
  - destruct (send_batches_shape data_list
                (range_step 0 (List.length data_list) batch_size) 0
                (step_world [EConnect h p 10%N None; EPrint (MsgConnected h p)]
                            1 w))
      as [r [w2 [evs [k [E [T [W [Cl [Co [Sl F]]]]]]]]]].
    fold (batches data_list) in W, F. fold (payloads data_list) in W, F.
    rewrite E. simpl in T.
    assert (Hshape : writes (EPrint (MsgConnected h p) :: evs)
                     = firstn k (payloads data_list)
                     /\ closes (EPrint (MsgConnected h p) :: evs) = 0
                     /\ connects (EPrint (MsgConnected h p) :: evs) = 0
                     /\ sleeps (EPrint (MsgConnected h p) :: evs) = []).
    { unfold closes, connects in *. simpl. now repeat split. }
    destruct Hshape as [W' [Cl' [Co' Sl']]].
    destruct r as [[sc|b]|e].
    + exists true, (step_world [EPrint (MsgSent sc); EClose] 0 w2),
        (EConnect h p 10%N None
         :: (EPrint (MsgConnected h p) :: evs ++ [EPrint (MsgSent sc)])
         ++ EClose :: []).
      split; [reflexivity|]. split.
      { simpl. rewrite T. rewrite <- !app_assoc. reflexivity. }
      right. right. repeat split; auto.
      exists (EPrint (MsgConnected h p) :: evs ++ [EPrint (MsgSent sc)]), [], k.
      split; [reflexivity|].
      assert (Hx : forall l, writes (l ++ [EPrint (MsgSent sc)]) = writes l
                             /\ closes (l ++ [EPrint (MsgSent sc)]) = closes l
                             /\ connects (l ++ [EPrint (MsgSent sc)])
                                = connects l
                             /\ sleeps (l ++ [EPrint (MsgSent sc)]) = sleeps l).
      { intros l. rewrite writes_app, closes_app, connects_app, sleeps_app.
        unfold closes, connects. simpl. rewrite !app_nil_r.
        repeat split; lia. }
      change (EPrint (MsgConnected h p) :: evs ++ [EPrint (MsgSent sc)])
        with ((EPrint (MsgConnected h p) :: evs) ++ [EPrint (MsgSent sc)]).
      destruct (Hx (EPrint (MsgConnected h p) :: evs)) as [X1 [X2 [X3 X4]]].
      rewrite X1, X2, X3, X4. repeat split; auto; try constructor.
      intros _. simpl. now apply (F sc).
    + exists b, (step_world [EClose] 0 w2),
        (EConnect h p 10%N None
         :: (EPrint (MsgConnected h p) :: evs) ++ EClose :: []).
      assert (Hb : b = false).
      { destruct (send_batches_spec data_list
                    (range_step 0 (List.length data_list) batch_size) 0
                    (step_world [EConnect h p 10%N None;
                                 EPrint (MsgConnected h p)] 1 w))
          as [r' [w3 [evs' [E' [_ [_ [_ S]]]]]]].
        rewrite E in E'. injection E' as <- _. now destruct S. }
      split; [reflexivity|]. split.
      { simpl. rewrite T. rewrite <- !app_assoc. reflexivity. }
      right. right. repeat split; auto.
      exists (EPrint (MsgConnected h p) :: evs), [], k.
      repeat split; auto; try constructor.
      intros Ht. congruence.
    + eexists false, _,
        (EConnect h p 10%N None
         :: (EPrint (MsgConnected h p) :: evs)
         ++ EClose :: [EPrint (if is_socket_error e
                               then MsgConnectFailed h p e
                               else MsgUnexpected e)]).
      split; [reflexivity|]. split.
      { simpl. rewrite T. rewrite <- !app_assoc. reflexivity. }
      right. right. repeat split; auto.
      exists (EPrint (MsgConnected h p) :: evs),
        [EPrint (if is_socket_error e then MsgConnectFailed h p e
                 else MsgUnexpected e)], k.
      repeat split; auto; try discriminate.
      repeat constructor. eauto.
Qed.

Lemma firstn_incl {A} (k : nat) (l : list A) (x : A) :
  In x (firstn k l) -> In x l.
Proof.
  intros H. rewrite <- (firstn_skipn k l). apply in_or_app. now left.
Qed.

Lemma payloads_are_batches (data_list : list pyval) (buf : Utf8.bytes) :
  In buf (payloads data_list) ->
  buf <> []
  /\ exists batch, In batch (batches data_list)
                   /\ buf = batch_text batch
                   /\ List.length batch <= 100.
Proof.
  unfold payloads. intros H. apply filter_In in H as [H Hne].
  split; [now destruct buf|].
  apply in_map_iff in H as [batch [<- Hb]]. exists batch.
  split; [exact Hb|]. split; [reflexivity|].
  unfold batches in Hb. apply in_map_iff in Hb as [i [<- _]].
  unfold slice. rewrite length_firstn. unfold batch_size. lia.
Qed.

(** X6: in any world and for any records, what one call hands to [sendall]
    is a beginning of the list of batch buffers, in the order of the batches,
    nothing skipped in between and nothing written twice; each buffer is the
    text of one batch of at most 100 records and is not empty; and when the
    call returns [True] every batch buffer was written. *)
Theorem send_to_logstash_writes_in_order (h : host) (p : port)
    (data_list : list pyval) (w : world) :
  exists b w' evs k,
    send_to_logstash h p data_list w = (Return b, w')
    /\ w_trace w' = w_trace w ++ evs
    /\ writes evs = firstn k (payloads data_list)
    /\ Forall (fun buf =>
                 buf <> []
                 /\ exists batch, In batch (batches data_list)
                                  /\ buf = batch_text batch
                                  /\ List.length batch <= 100) (writes evs)
    /\ (b = true -> writes evs = payloads data_list).
Proof.
  destruct (send_to_logstash_shape h p data_list w)
    as [b [w' [evs [E [T S]]]]].
  assert (Hk : exists k, writes evs = firstn k (payloads data_list)
                         /\ (b = true -> writes evs = payloads data_list)).
  { destruct S as [[-> [_ Hp]]|[[_ [e [m [_ [Hb ->]]]]]|[_ [_ S]]]].
    - exists 0. destruct (prints_only_quiet evs Hp) as [_ [-> _]].
      now split.
    - exists 0. split; [reflexivity|]. congruence.
    - destruct S as [mid [after [k [-> [W [_ [_ [_ [Hp F]]]]]]]]].
      exists k. destruct (prints_only_quiet after Hp) as [_ [Wa _]].
      change (EConnect h p 10%N None :: mid ++ EClose :: after)
        with ([EConnect h p 10%N None] ++ mid ++ [EClose] ++ after).
      rewrite !writes_app, Wa. cbn [writes flat_map app].
      rewrite app_nil_r. now split. }
  destruct Hk as [k [Hk Ht]].
  exists b, w', evs, k. split; [exact E|]. split; [exact T|].
  split; [exact Hk|]. split; [|exact Ht].
  rewrite Hk. apply Forall_forall. intros buf Hin.
  apply payloads_are_batches. eapply firstn_incl. exact Hin.
Qed.

(** X7: a connection that was opened is closed, once, before the call comes
    back, however the call ends: the closing follows the connection and
    every write, and nothing is written or opened after it.  When no
    connection was opened, for an empty list or a refused connection,
    nothing is written and nothing is closed. *)
Theorem send_to_logstash_closes_connection (h : host) (p : port)
    (data_list : list pyval) (w : world) :
  exists b w' evs,
    send_to_logstash h p data_list w = (Return b, w')
    /\ w_trace w' = w_trace w ++ evs
    /\ (((data_list = [] \/ w_net w (w_clock w) <> None)
         /\ closes evs = 0 /\ writes evs = [])
        \/ (data_list <> [] /\ w_net w (w_clock w) = None
            /\ closes evs = 1 /\ connects evs = 1
            /\ exists mid after,
                 evs = EConnect h p 10%N None :: mid ++ EClose :: after
                 /\ closes mid = 0 /\ connects mid = 0
                 /\ writes after = [] /\ connects after = 0
                 /\ closes after = 0)).
Proof.
  destruct (send_to_logstash_shape h p data_list w)
    as [b [w' [evs [E [T S]]]]].
  exists b, w', evs. split; [exact E|]. split; [exact T|].
  destruct S as [[-> [_ Hp]]|[[_ [e [m [He [_ ->]]]]]|[Hne [Hnet S]]]].
  - left. destruct (prints_only_quiet evs Hp) as [_ [Hw [_ [Hc _]]]].
    split; [now left|now split].
  - left. split; [right; congruence|now split].
  - right. destruct S as [mid [after [k [-> [_ [Cl [Co [_ [Hp _]]]]]]]]].
    destruct (prints_only_quiet after Hp) as [_ [Wa [Ca [Cla _]]]].
    split; [exact Hne|]. split; [exact Hnet|].
    change (EConnect h p 10%N None :: mid ++ EClose :: after)
      with ([EConnect h p 10%N None] ++ mid ++ [EClose] ++ after).
    rewrite !closes_app, !connects_app, Cl, Co, Ca, Cla.
    split; [reflexivity|]. split; [reflexivity|].
    exists mid, after. now repeat split.
Qed.

(** ** Retrying until delivered *)

Lemma send_to_logstash_accepted (h : host) (p : port)
    (data_list : list pyval) (w : world) :
  data_list <> [] ->
  Forall serializable data_list ->
  accepting w ->
  send_to_logstash h p data_list w
  = (Return true,
     step_world (delivery h p data_list) (S (List.length (batches data_list)))
                w).
Proof.
  intros Hne Hser Hacc.
  rewrite (send_to_logstash_run h p data_list w Hne), (Hacc _ (le_n _)).
  rewrite send_batches_accepted.
  - fold (batches data_list). rewrite batches_concat.
    rewrite !step_world_step. f_equal.
    apply world_eq; simpl; try reflexivity.
    unfold batches. rewrite !length_map. lia.
  - exact Hser.
  - apply Forall_forall. intros i. apply range_step_bound.
  - intros i Hi. apply Hacc. simpl in Hi. lia.
Qed.

Lemma delivery_counts (h : host) (p : port) (data_list : list pyval) :
  writes (delivery h p data_list) = map batch_text (batches data_list)
  /\ connects (delivery h p data_list) = 1
  /\ closes (delivery h p data_list) = 1
  /\ sleeps (delivery h p data_list) = [].
Proof.
  unfold delivery.
  assert (H : forall bs : list (list pyval),
            writes (map (fun b => ESendall (batch_text b) None) bs)
            = map batch_text bs
            /\ connects (map (fun b => ESendall (batch_text b) None) bs) = 0
            /\ closes (map (fun b => ESendall (batch_text b) None) bs) = 0
            /\ sleeps (map (fun b => ESendall (batch_text b) None) bs) = []).
  { induction bs as [|b r [H1 [H2 [H3 H4]]]]; [now repeat split|].
    unfold connects, closes in *. simpl. rewrite H1. now repeat split. }
  destruct (H (batches data_list)) as [H1 [H2 [H3 H4]]].
  rewrite !writes_app, !connects_app, !closes_app, !sleeps_app.
  rewrite H1, H2, H3, H4. unfold connects, closes. simpl.
  rewrite app_nil_r. now repeat split.
Qed.

Lemma refusal_counts (h : host) (p : port) (e : exn) :
  writes (refusal h p e ++ retry_pause) = []
  /\ connects (refusal h p e ++ retry_pause) = 1
  /\ closes (refusal h p e ++ retry_pause) = 0
  /\ sleeps (refusal h p e ++ retry_pause) = [5%N].
Proof. now repeat split. Qed.

(** X8: when the endpoint refuses the first [k] connections and accepts from
    then on, the send loop, given more than [k] iterations, comes back after
    [k] pauses of 5 seconds and [k + 1] connections, and every batch has
    been written exactly once, in order. *)
Theorem send_loop_delivers_after_refusals (h : host) (p : port)
    (data_list : list pyval) (k fuel : nat) (w : world) :
  data_list <> [] ->
  Forall serializable data_list ->
  (forall i, i < k -> w_net w (w_clock w + i) <> None) ->
  (forall i, w_clock w + k <= i -> w_net w i = None) ->
  k < fuel ->
  exists evs,
    send_loop fuel h p data_list w
    = (Return Exited,
       step_world evs (k + S (List.length (batches data_list))) w)
    /\ connects evs = S k
    /\ sleeps evs = repeat 5%N k
    /\ closes evs = 1
    /\ writes evs = map batch_text (batches data_list)
    /\ List.concat (writes evs) = flat_map wire_line data_list.
Proof.
  intros Hne Hser. revert fuel w.
  induction k as [|k IH]; intros fuel w Hfail Hacc Hfuel.
  - destruct fuel as [|fuel]; [lia|].
    rewrite send_loop_step, send_to_logstash_accepted; auto.
    + exists (delivery h p data_list).
      destruct (delivery_counts h p data_list) as [W [C [Cl S]]].
      split; [reflexivity|]. rewrite W, C, Cl, S. repeat split.
      unfold batch_text. now rewrite concat_wire_lines, batches_concat.
    + intros i Hi. apply Hacc. lia.
  - destruct fuel as [|fuel]; [lia|].
    rewrite send_loop_step, (send_to_logstash_run h p data_list w Hne).
    destruct (w_net w (w_clock w)) as [e|] eqn:En.
    2:{ exfalso. apply (Hfail 0); [lia|]. now rewrite Nat.add_0_r. }
    fold (refusal h p e).
    destruct (IH fuel (step_world retry_pause 0
                                  (step_world (refusal h p e) 1 w)))
      as [evs [E [C [S [Cl [W Wc]]]]]].
    + intros i Hi. simpl. replace (S (w_clock w + i)) with (w_clock w + S i)
        by lia. apply Hfail. lia.
    + intros i Hi. simpl in Hi. apply Hacc. lia.
    + lia.
    + exists ((refusal h p e ++ retry_pause) ++ evs).
      destruct (refusal_counts h p e) as [Rw [Rc [Rcl Rs]]].
      split.
      * rewrite E. f_equal. rewrite !step_world_step.
        apply world_eq; simpl; try reflexivity; try lia.
      * rewrite writes_app, connects_app, closes_app, sleeps_app.
        rewrite Rw, Rc, Rcl, Rs, C, S, Cl, W. repeat split.
        rewrite <- W. exact Wc.
Qed.

Example send_loop_delivers_after_refusals_witness :
  exists evs,
    send_loop 3 LOGSTASH_HOST LOGSTASH_PORT sample_records
              (initial_world [] net_refuses_twice)
    = (Return Exited, step_world evs 5 (initial_world [] net_refuses_twice))
    /\ connects evs = 3
    /\ sleeps evs = [5%N; 5%N].
Proof.
  assert (H1 : sample_records <> []) by discriminate.
  assert (H2 : Forall serializable sample_records).
  { apply Forall_forall. intros r Hr. unfold sample_records in Hr.
    apply in_map_iff in Hr as [k [<- _]]. eexists. apply dumps_Record. }
  assert (H3 : forall i, i < 2 ->
                 w_net (initial_world [] net_refuses_twice)
                       (w_clock (initial_world [] net_refuses_twice) + i)
                 <> None).
  { intros i Hi. destruct i as [|[|i]]; simpl; try discriminate. lia. }
  assert (H4 : forall i,
                 w_clock (initial_world [] net_refuses_twice) + 2 <= i ->
                 w_net (initial_world [] net_refuses_twice) i = None).
  { intros i Hi. simpl in *. unfold net_refuses_twice.
    destruct (Nat.ltb_spec i 2); [lia|reflexivity]. }
  destruct (send_loop_delivers_after_refusals LOGSTASH_HOST LOGSTASH_PORT
              sample_records 2 3 (initial_world [] net_refuses_twice)
              H1 H2 H3 H4 (le_n 3))
    as [evs [E [C [S _]]]].
  exists evs. split; [exact E|]. split; [exact C|exact S].
Defined.

Lemma firstn_S_nth {A} (j : nat) (l : list A) (d : A) :
  j < List.length l -> firstn (S j) l = firstn j l ++ [nth j l d].
Proof.
  revert j. induction l as [|x r IH]; intros j Hj; [simpl in Hj; lia|].
  destruct j as [|j]; [reflexivity|].
  simpl in Hj. cbn [firstn nth app]. f_equal. apply IH. lia.
Qed.

(** The batch loop when the write of batch [j] is the first to fail. *)
Lemma send_batches_fails_at (data_list : list pyval) (indices : list nat)
    (sent_count j : nat) (e : exn) (w : world) :
  Forall serializable data_list ->
  Forall (fun i => i < List.length data_list) indices ->
  j < List.length indices ->
  (forall i, i < j -> w_net w (w_clock w + i) = None) ->
  w_net w (w_clock w + j) = Some e ->
  let bs := map (fun i => slice data_list i (i + batch_size)) indices in
  send_batches data_list indices sent_count w
  = ((if is_socket_error e then Return (Returned false) else Raise e),
     step_world (map (fun b => ESendall (batch_text b) None) (firstn j bs)
                 ++ [ESendall (batch_text (nth j bs [])) (Some e)]
                 ++ (if is_socket_error e
                     then [EPrint (MsgSocketSendError e)] else []))
                (S j) w).
Proof.
  intros Hser. revert sent_count j w.
  induction indices as [|i rest IH]; intros sc j w Hidx Hj Hok Hfail;
    cbv zeta; [simpl in Hj; lia|].
  apply Forall_cons_iff in Hidx as [Hi Hrest].
  cbn [send_batches map].
  set (batch := slice data_list i (i + batch_size)).
  assert (Hb : Forall serializable batch) by now apply Forall_slice.
  unfold bind at 1. rewrite serialize_batch_run.
  rewrite (serialize_errors_nil _ Hb), step_world_nil. cbn [app].
  rewrite (wire_lines_nonempty batch Hb (slice_nonempty _ _ Hi)).
  cbn [negb]. unfold bind at 1, try_except, bind at 1, lift.
  rewrite utf8_encode_ascii
    by (apply is_ascii_flat_map; intros; apply wire_line_ascii).
  unfold bind at 1, sendall, net_op. rewrite tick_emit_step.
  fold (batch_text batch).
  destruct j as [|j].
  - rewrite Nat.add_0_r in Hfail. rewrite Hfail. cbn [firstn map nth app].
    destruct (is_socket_error e).
    + unfold bind at 1, print at 1, ret.
      now rewrite emit_step, step_world_step.
    + reflexivity.
  - pose proof (Hok 0 (Nat.lt_0_succ j)) as H0.
    rewrite Nat.add_0_r in H0. rewrite H0. unfold ret at 1.
    rewrite (IH (sc + List.length batch) j).
    + rewrite step_world_step. cbn [firstn map nth app]. reflexivity.
    + exact Hrest.
    + simpl in Hj. lia.
    + intros k Hk. simpl.
      replace (S (w_clock w + k)) with (w_clock w + S k) by lia.
      apply Hok. lia.
    + simpl. replace (S (w_clock w + j)) with (w_clock w + S j) by lia.
      exact Hfail.
Qed.

Lemma send_to_logstash_broken (h : host) (p : port) (data_list : list pyval)
    (j : nat) (e : exn) (w : world) :
  Forall serializable data_list ->
  j < List.length (batches data_list) ->
  w_net w (w_clock w) = None ->
  (forall i, i < j -> w_net w (w_clock w + 1 + i) = None) ->
  w_net w (w_clock w + 1 + j) = Some e ->
  send_to_logstash h p data_list w
  = (Return false, step_world (broken_delivery h p data_list j e) (S (S j)) w).
Proof.
  intros Hser Hj Hconn Hok Hfail.
  assert (Hne : data_list <> []) by (intros ->; simpl in Hj; lia).
  rewrite (send_to_logstash_run h p data_list w Hne), Hconn.
  rewrite (send_batches_fails_at data_list _ 0 j e).
  - fold (batches data_list). unfold broken_delivery.
    destruct (is_socket_error e) eqn:Es; rewrite !step_world_step; f_equal;
      apply world_eq; simpl; try reflexivity; try lia;
      rewrite ?Es, <- !app_assoc; reflexivity.
  - exact Hser.
  - apply Forall_forall. intros i. apply range_step_bound.
  - unfold batches in Hj. now rewrite length_map in Hj.
  - intros i Hi. simpl.
    replace (S (w_clock w + i)) with (w_clock w + 1 + i) by lia. now apply Hok.
  - simpl. replace (S (w_clock w + j)) with (w_clock w + 1 + j) by lia.
    exact Hfail.
Qed.

Lemma broken_delivery_counts (h : host) (p : port) (data_list : list pyval)
    (j : nat) (e : exn) :
  j < List.length (batches data_list) ->
  writes (broken_delivery h p data_list j e ++ retry_pause)
  = firstn (S j) (map batch_text (batches data_list))
  /\ connects (broken_delivery h p data_list j e ++ retry_pause) = 1
  /\ closes (broken_delivery h p data_list j e ++ retry_pause) = 1
  /\ sleeps (broken_delivery h p data_list j e ++ retry_pause) = [5%N].
Proof.
  intros Hj. unfold broken_delivery.
  assert (H : forall bs : list (list pyval),
            writes (map (fun b => ESendall (batch_text b) None) bs)
            = map batch_text bs
            /\ connects (map (fun b => ESendall (batch_text b) None) bs) = 0
            /\ closes (map (fun b => ESendall (batch_text b) None) bs) = 0
            /\ sleeps (map (fun b => ESendall (batch_text b) None) bs) = []).
  { induction bs as [|b r [H1 [H2 [H3 H4]]]]; [now repeat split|].
    unfold connects, closes in *. simpl. rewrite H1. now repeat split. }
  destruct (H (firstn j (batches data_list))) as [H1 [H2 [H3 H4]]].
  rewrite !writes_app, !connects_app, !closes_app, !sleeps_app.
  rewrite H1, H2, H3, H4.
  rewrite (firstn_S_nth j (map batch_text (batches data_list)) (batch_text []))
    by now rewrite length_map.
  rewrite firstn_map, (map_nth batch_text).
  destruct (is_socket_error e); unfold connects, closes; simpl;
    rewrite ?app_nil_r; now repeat split.
Qed.

(** X9: when a write fails after some batches went through, nothing
    remembers them: the loop pauses 5 seconds, connects again and writes
    every batch from the first one, so the batches that had been delivered
    are delivered a second time.  With the write of batch [j] the only
    failure, the buffers handed to [sendall] are batches 0 to [j], then all
    the batches again. *)
Theorem send_loop_resends_after_write_failure (h : host) (p : port)
    (data_list : list pyval) (j : nat) (e : exn) (fuel : nat) (w : world) :
  Forall serializable data_list ->
  j < List.length (batches data_list) ->
  w_net w (w_clock w) = None ->
  (forall i, i < j -> w_net w (w_clock w + 1 + i) = None) ->
  w_net w (w_clock w + 1 + j) = Some e ->
  (forall i, w_clock w + 2 + j <= i -> w_net w i = None) ->
  2 <= fuel ->
  exists evs,
    send_loop fuel h p data_list w
    = (Return Exited,
       step_world evs (j + 3 + List.length (batches data_list)) w)
    /\ writes evs
       = firstn (S j) (map batch_text (batches data_list))
         ++ map batch_text (batches data_list)
    /\ sleeps evs = [5%N]
    /\ connects evs = 2
    /\ closes evs = 2.
Proof.
  intros Hser Hj Hconn Hok Hfail Hacc Hfuel.
  assert (Hne : data_list <> []) by (intros ->; simpl in Hj; lia).
  destruct fuel as [|[|fuel]]; try lia.
  rewrite send_loop_step.
  rewrite (send_to_logstash_broken h p data_list j e w Hser Hj Hconn Hok Hfail).
  rewrite send_loop_step, send_to_logstash_accepted; auto.
  - exists ((broken_delivery h p data_list j e ++ retry_pause)
            ++ delivery h p data_list).
    destruct (broken_delivery_counts h p data_list j e Hj)
      as [Bw [Bc [Bcl Bs]]].
    destruct (delivery_counts h p data_list) as [W [C [Cl S]]].
    split.
    + f_equal. rewrite !step_world_step.
      apply world_eq; simpl; try reflexivity; try lia.
      now rewrite <- !app_assoc.
    + rewrite writes_app, connects_app, closes_app, sleeps_app.
      rewrite Bw, Bc, Bcl, Bs, W, C, Cl, S. now repeat split.
  - intros i Hi. simpl in Hi. apply Hacc. lia.
Qed.

Example send_loop_resends_after_write_failure_witness :
  exists evs,
    send_loop 2 LOGSTASH_HOST LOGSTASH_PORT sample_records
              second_write_fails_world
    = (Return Exited, step_world evs 6 second_write_fails_world)
    /\ writes evs
       = firstn 2 (map batch_text (batches sample_records))
         ++ map batch_text (batches sample_records).
Proof.
  assert (H1 : Forall serializable sample_records).
  { apply Forall_forall. intros r Hr. unfold sample_records in Hr.
    apply in_map_iff in Hr as [k [<- _]]. eexists. apply dumps_Record. }
  assert (H2 : 1 < List.length (batches sample_records))
    by (apply Nat.ltb_lt; reflexivity).
  assert (H3 : forall i, i < 1 ->
                 w_net second_write_fails_world
                       (w_clock second_write_fails_world + 1 + i) = None).
  { intros i Hi. destruct i; [reflexivity|lia]. }
  assert (H4 : forall i, w_clock second_write_fails_world + 2 + 1 <= i ->
                 w_net second_write_fails_world i = None).
  { intros i Hi. simpl in *. unfold net_second_write_fails.
    destruct (Nat.eqb_spec i 2); [lia|reflexivity]. }
  destruct (send_loop_resends_after_write_failure LOGSTASH_HOST LOGSTASH_PORT
              sample_records 1 OSError 2 second_write_fails_world
              H1 H2 eq_refl H3 eq_refl H4 (le_n 2))
    as [evs [E [W _]]].
  exists evs. split; [exact E|exact W].
Defined.

(** ** The whole run *)








(** *** The console *)










(** X13: on a console that cannot encode the path of the folder, [main]
    raises [UnicodeEncodeError] before it reads a file or touches the
    network: at the report that the folder was not found when the path is no
    directory, at the notice of the scan when it is one.  Neither print is in
    a [try]. *)
Theorem main_raises_on_unprintable_folder (console : pystr -> bool)
    (fuel : nat) (log_folder_path : path) (h : host) (p : port) (w : world) :
  forallb console log_folder_path = false ->
  main_with (print_on console) fuel log_folder_path h p w
  = (Raise UnicodeEncodeError, w).
Proof.
  intros H. unfold main_with, gather_with.
  cbv beta delta [bind isdir]. cbv beta iota.
  destruct (match resolve (w_fs w) log_folder_path with
            | Some n => is_dir n
            | None => false
            end); cbn [negb];
    unfold print_on; cbn [message_path]; now rewrite H.
Qed.

Example main_raises_on_unprintable_folder_witness :
  main_with (print_on utf8_console) 1 [0xDCFF%N :: lit "logs"] LOGSTASH_HOST
    LOGSTASH_PORT
    (initial_world [Dir (0xDCFF%N :: lit "logs") [a_txt true]] net_accepting)
  = (Raise UnicodeEncodeError,
     initial_world [Dir (0xDCFF%N :: lit "logs") [a_txt true]] net_accepting).
Proof.
  exact (main_raises_on_unprintable_folder utf8_console 1
           [0xDCFF%N :: lit "logs"] LOGSTASH_HOST LOGSTASH_PORT
           (initial_world [Dir (0xDCFF%N :: lit "logs") [a_txt true]]
                          net_accepting)
           eq_refl).
Defined.

(** ** Blank lines *)

(** X12: [log_parser] skips a line exactly when the line consists of
    whitespace characters only (the empty line included); any other
    character in it yields a record. *)
Theorem log_parser_skips_whitespace_lines (line : pystr) :
  log_parser line = PyNone <-> forallb isspace line = true.
Proof.
  rewrite <- lstrip_nil_iff. unfold log_parser, strip. cbv zeta.
  destruct (lstrip line) as [|c u] eqn:E.
  - split; reflexivity.
  - destruct (rstrip_head c u (lstrip_head _ _ _ E)) as [v ->].
    split; discriminate.
Qed.
